(** * tegola: the ring-validation sweep and the level-gated logger

    A shallow embedding of three Go packages of the repository:

    - package [validate] (the second file of [provider/mbtiles/mbtiles.go]):
      [xyorder], the event queue ([NewEventQueue], [Next], [Complement]),
      [DoesIntersect], [FindIntersects] and [IsSimple];
    - package [log] ([internal/log/log.go]): [SetLogLevel] and the gated
      forwarding functions.
    - package [mbtiles] (the first file of [provider/mbtiles/mbtiles.go]):
      [isGzip], [getMetaData], [getTile] and [MVTLayer], over the database,
      the parsers and the decoders they call, which are parameters.

    Conventions of the embedding.

    - In the modules [Maths] and [Validate] a coordinate ([float64] in Go) is
      an exact integer [Z]: the scanner only compares coordinates and uses
      [DoesIntersect] as a test on two segments, and the statements about it
      concern ordering and index arithmetic.
    - The arithmetic of [DoesIntersect] itself, a product of two [float64]
      signs compared with 0, is modelled on binary64 numbers in the module
      [Float64], each operation rounded as IEEE 754 prescribes.
    - Slice indices and segment numbers are [nat]; a Go [int] that holds a
      log level is a [Z].
    - A pointer to a value that is never written after its initialisation is
      the value itself ([*event], [*maths.Pt]).
    - The open set [map[int]struct{}] is a [gset nat].  The order in which Go
      ranges over it is not specified: it is the parameter [range_order].
    - [sort.Sort] is not specified beyond "a sorted permutation, ties in any
      order": it is the parameter [sort], constrained by [sort_contract]
      where a statement needs it.
    - The callback of [FindIntersects] is a Go closure: it is a function
      that threads a state of type [St]. *)

From Stdlib Require Import ZArith Lia List Sorting.Sorted Permutation.
From Stdlib Require Strings.Byte.
From Stdlib Require Floats.
From stdpp Require Import base decidable numbers option list sorting gmap strings.

#[local] Set Warnings "-clear-no-such-hyp".

Local Open Scope Z_scope.

(** ** Package [maths]: points, lines, orientation *)

Module Maths.

(** [type Pt struct { X, Y float64 }] *)
Record Pt : Type := mkPt { X : Z; Y : Z }.

#[global] Instance Pt_eq_dec : EqDecision Pt.
Proof. solve_decision. Defined.

#[global] Instance Pt_inhabited : Inhabited Pt := populate (mkPt 0 0).

(** [type Line [2]Pt]: [l_0] is [l[0]], [l_1] is [l[1]]. *)
Record Line : Type := mkLine { l_0 : Pt; l_1 : Pt }.

#[global] Instance Line_eq_dec : EqDecision Line.
Proof. solve_decision. Defined.

#[global] Instance Line_inhabited : Inhabited Line :=
  populate (mkLine inhabitant inhabitant).

(** Modelled from the spec: [maths.Line.IsLeft] is not part of the sources
    at hand.  Section 4.1: "positive if P lies left of the directed line
    A->B, negative if right, zero if collinear.  Implemented as the cross
    product of (B-A) and (P-A); no normalization". *)
Definition IsLeft (l : Line) (pt : Pt) : Z :=
  (X (l_1 l) - X (l_0 l)) * (Y pt - Y (l_0 l))
  - (X pt - X (l_0 l)) * (Y (l_1 l) - Y (l_0 l)).

(** Modelled from the spec: the lexicographic (x, then y) strict order that
    section 4.1 canonicalises with. *)
Definition xy_before (p q : Pt) : bool :=
  (X p <? X q) || ((X p =? X q) && (Y p <? Y q)).

(** Modelled from the spec: [maths.Line.LeftRightMostAsLine] is not part of
    the sources at hand.  Section 4.1: "returns the same two endpoints ordered
    so the first precedes the second in (x,y) lexicographic order"; of two
    equal points either order is the same line. *)
Definition LeftRightMostAsLine (l : Line) : Line :=
  if xy_before (l_1 l) (l_0 l) then mkLine (l_1 l) (l_0 l) else l.

End Maths.

(** ** Package [validate] *)

Module Validate.
Import Maths.

(** [func xyorder(pt1, pt2 maths.Pt) int] *)
Definition xyorder (pt1 pt2 : Pt) : Z :=
  if X pt1 >? X pt2 then 1
  else if X pt1 <? X pt2 then -1
  else if Y pt1 >? Y pt2 then 1
  else if Y pt1 <? Y pt2 then -1
  else 0.

(** [func yxorder(pt1, pt2 maths.Pt) int] *)
Definition yxorder (pt1 pt2 : Pt) : Z :=
  if Y pt1 >? Y pt2 then 1
  else if Y pt1 <? Y pt2 then -1
  else if X pt1 >? X pt2 then 1
  else if X pt1 <? X pt2 then -1
  else 0.

(** [type eventType uint8] with [LEFT = iota], [RIGHT]. *)
Inductive eventType : Type := LEFT | RIGHT.

#[global] Instance eventType_eq_dec : EqDecision eventType.
Proof. solve_decision. Defined.

(** [type event struct { edge int; edgeType eventType; ev *maths.Pt }] *)
Record event : Type := mkEvent { edge : nat; edgeType : eventType; ev : Pt }.

#[global] Instance event_eq_dec : EqDecision event.
Proof. solve_decision. Defined.

(** [XYOrderedEventPtr.Less] on the two events it is called on. *)
Definition Less (a b : event) : bool := xyorder (ev a) (ev b) =? -1.

(** [type eventQueue struct { edata []event; eq []*event; ix int }].
    [eq] holds pointers into [edata]; sorting permutes the pointers only, so
    [edata] keeps the order of construction and [eq] is the sorted view. *)
Record eventQueue : Type :=
  mkQueue { edata : list event; eq : list event; ix : nat }.

(** [func (eq *eventQueue) Next() *event]: the event and the advanced queue;
    [None] is [nil]. *)
Definition Next (q : eventQueue) : option event * eventQueue :=
  if decide (length (edata q) ≤ ix q)%nat then (None, q)
  else (eq q !! ix q, mkQueue (edata q) (eq q) (S (ix q))).

(** [func (eq *eventQueue) Complement(e *event) *event]; [None] stands for an
    index out of range. *)
Definition Complement (q : eventQueue) (e : event) : option event :=
  let idx := (edge e * 2)%nat in
  if decide (edgeType e = LEFT) then eq q !! (idx + 1)%nat
  else eq q !! idx.

(** The two events written for segment [i] by the loop of [NewEventQueue]:
    slot [2i] is at [segments[i][0]], slot [2i+1] at [segments[i][1]]. *)
Definition segment_events (i : nat) (seg : Line) : list event :=
  if xyorder (l_0 seg) (l_1 seg) <? 0
  then [mkEvent i LEFT (l_0 seg); mkEvent i RIGHT (l_1 seg)]
  else [mkEvent i RIGHT (l_0 seg); mkEvent i LEFT (l_1 seg)].

(** The initialisation loop [for i := range segments] from segment [i] on. *)
Fixpoint init_events (i : nat) (segments : list Line) : list event :=
  match segments with
  | [] => []
  | seg :: rest => segment_events i seg ++ init_events (S i) rest
  end.

(** What [sort.Sort] promises on [XYOrderedEventPtr]: the result is a
    permutation of its argument in which no later element is [Less] than an
    earlier one.  The order of tied elements is free. *)
Definition not_after (a b : event) : Prop := Less b a = false.

Definition sort_contract (sort : list event → list event) : Prop :=
  ∀ l, sort l ≡ₚ l ∧ StronglySorted not_after (sort l).

(** A stable instance of [sort]: insertion sort, an element going in front of
    the first element that is not [Less] than it. *)
Fixpoint insert_event (x : event) (l : list event) : list event :=
  match l with
  | [] => [x]
  | y :: l' => if Less y x then y :: insert_event x l' else x :: y :: l'
  end.

Definition stable_sort (l : list event) : list event :=
  foldr insert_event [] l.

(** A second instance, which puts an element behind the elements it ties
    with and so reverses every group of ties. *)
Fixpoint insert_event_last (x : event) (l : list event) : list event :=
  match l with
  | [] => [x]
  | y :: l' => if Less x y then x :: y :: l' else y :: insert_event_last x l'
  end.

Definition reversing_sort (l : list event) : list event :=
  foldr insert_event_last [] l.

(** [func DoesIntersect(s1, s2 maths.Line) bool] *)
Definition DoesIntersect (s1 s2 : Line) : bool :=
  let as2 := LeftRightMostAsLine s2 in
  let as1 := LeftRightMostAsLine s1 in
  let lsign := IsLeft as1 (l_0 as2) in
  let rsign := IsLeft as1 (l_1 as2) in
  if lsign * rsign >? 0 then false
  else
    let lsign := IsLeft as2 (l_0 as1) in
    let rsign := IsLeft as2 (l_1 as1) in
    if lsign * rsign >? 0 then false
    else true.

Section Scanner.

(** The state the callback closes over. *)
Context {St : Type}.

(** [sort.Sort(XYOrderedEventPtr(eq.eq))]. *)
Variable sort : list event → list event.

(** [maths.Intersect], the external solver: the point and its validity. *)
Variable Intersect : Line → Line → Pt * bool.

(** The order in which [for l := range isegmap] yields the keys when the
    cursor of the queue is at the given position. *)
Variable range_order : nat → list nat → list nat.

(** [fn func(srcIdx, destIdx int, ptfn func() maths.Pt) bool] *)
Definition callback : Type := St → nat → nat → (unit → Pt) → St * bool.

(** [func NewEventQueue(segments []maths.Line) *eventQueue] *)
Definition NewEventQueue (segments : list Line) : eventQueue :=
  let edata := init_events 0 segments in
  mkQueue edata (sort edata) 0.

(** The loop [for _, s := range segs] of [FindIntersects], run while the
    event of segment [ev_edge] is being closed.  The boolean is [false]
    when the callback asked to stop, that is when [FindIntersects]
    returns from inside the loop. *)
Fixpoint test_open (segments : list Line) (fn : callback) (ev_edge : nat)
    (segs : list nat) (st : St) : St * bool :=
  match segs with
  | [] => (st, true)
  | s :: rest =>
      let ns := length segments in
      let edge := segments !!! ev_edge in
      let src := ((s + 1) `mod` ns)%nat in
      let dest := ((ev_edge + 1) `mod` ns)%nat in
      if (ev_edge =? s)%nat || (src =? ev_edge)%nat || (dest =? s)%nat
      then test_open segments fn ev_edge rest st
      else
        let sedge := segments !!! s in
        if negb (DoesIntersect edge sedge)
        then test_open segments fn ev_edge rest st
        else
          let ptfn := λ _ : unit, fst (Intersect edge sedge) in
          let src := ev_edge in
          let dest := s in
          let '(src, dest) :=
            if (dest <? src)%nat then (dest, src) else (src, dest) in
          let '(st', go_on) := fn st src dest ptfn in
          if negb go_on then (st', false)
          else test_open segments fn ev_edge rest st'
  end.

(** The variables of [FindIntersects] that live across iterations of the
    event loop. *)
Record loop_state : Type :=
  mkLoop { lq : eventQueue; isegmap : gset nat; cbst : St }.

(** Where control goes after one pass through the loop header and body. *)
Inductive flow : Type :=
| Running (s : loop_state)   (* back to the loop header *)
| Returned (s : loop_state). (* the loop is left, [FindIntersects] returns *)

Definition flow_state (f : flow) : loop_state :=
  match f with Running s | Returned s => s end.

(** One iteration: [ev := eq.Next()], the test [ev != nil], the body. *)
Definition loop_body (segments : list Line) (fn : callback)
    (s : loop_state) : flow :=
  match Next (lq s) with
  | (None, q') => Returned (mkLoop q' (isegmap s) (cbst s))
  | (Some e, q') =>
      if decide (edge e ∈ isegmap s) then
        let m := isegmap s ∖ {[edge e]} in
        if decide (size m = 0)%nat then Running (mkLoop q' m (cbst s))
        else
          let segs := range_order (ix q') (elements m) in
          let '(st', go_on) := test_open segments fn (edge e) segs (cbst s) in
          if go_on then Running (mkLoop q' m st')
          else Returned (mkLoop q' m st')
      else Running (mkLoop q' ({[edge e]} ∪ isegmap s) (cbst s))
  end.

(** The event loop, at most [fuel] iterations of it.  [Running] as a result
    says that the loop has not been left yet. *)
Fixpoint drain (fuel : nat) (segments : list Line) (fn : callback)
    (s : loop_state) : flow :=
  match fuel with
  | O => Running s
  | S fuel' =>
      match loop_body segments fn s with
      | Running s' => drain fuel' segments fn s'
      | Returned s' => Returned s'
      end
  end.

(** The state at the first arrival at the loop header. *)
Definition loop_init (segments : list Line) (st : St) : loop_state :=
  mkLoop (NewEventQueue segments) ∅ st.

(** The frame of [FindIntersects] when it returns, for [ns >= 3]: every
    event costs one iteration and the exhausted queue one more. *)
Definition scan (segments : list Line) (fn : callback) (st : St) : loop_state :=
  flow_state
    (drain (S (2 * length segments)) segments fn (loop_init segments st)).

(** [func FindIntersects(segments []maths.Line, fn func(...) bool)]: the
    state of the callback after the call. *)
Definition FindIntersects (segments : list Line) (fn : callback) (st : St) : St :=
  let ns := length segments in
  if (ns <? 3)%nat then st
  else cbst (scan segments fn st).

End Scanner.

(** The function literal in [IsSimple]; its state is the variable [found]
    it assigns to. *)
Definition found_one : @callback bool :=
  λ (_ : bool) (_ _ : nat) (_ : unit → Pt), (false, false).

(** [func IsSimple(segments []maths.Line) bool] *)
Definition IsSimple (sort : list event → list event)
    (Intersect : Line → Line → Pt * bool)
    (range_order : nat → list nat → list nat)
    (segments : list Line) : bool :=
  let found := true in
  FindIntersects sort Intersect range_order segments found_one found.

(** ** Observing the callback *)

(** One invocation of the callback: the two indices and what it returned. *)
Record call : Type := mkCall { srcIdx : nat; destIdx : nat; went_on : bool }.

(** A callback that behaves as [fn] and records each invocation. *)
Definition logged {St : Type} (fn : @callback St) : @callback (St * list call) :=
  λ st src dest ptfn,
    let '(st', b) := fn (fst st) src dest ptfn in
    ((st', snd st ++ [mkCall src dest b]), b).

(** The always-continue callback that collects the reported pairs. *)
Definition collect : @callback (list (nat * nat)) :=
  λ st src dest _, (st ++ [(src, dest)], true).

(** The pairs [FindIntersects] reports, in the order of the reports. *)
Definition reported (sort : list event → list event)
    (Intersect : Line → Line → Pt * bool)
    (range_order : nat → list nat → list nat)
    (segments : list Line) : list (nat * nat) :=
  FindIntersects sort Intersect range_order segments collect [].

(** ** Notions used in the statements *)

(** [i] and [j] are the same segment of a ring of [ns] segments, or one is
    the ring successor of the other. *)
Definition ring_adjacent (ns i j : nat) : Prop :=
  i = j ∨ j = ((i + 1) `mod` ns)%nat ∨ i = ((j + 1) `mod` ns)%nat.

(** Every key is yielded once by a [range] over a map. *)
Definition range_contract (range_order : nat → list nat → list nat) : Prop :=
  ∀ k l, range_order k l ≡ₚ l.

(** The log of a run of [FindIntersects] on callback [fn]. *)
Definition calls_of {St : Type} (sort : list event → list event)
    (Intersect : Line → Line → Pt * bool)
    (range_order : nat → list nat → list nat)
    (segments : list Line) (fn : @callback St) (st : St) : list call :=
  snd (FindIntersects sort Intersect range_order segments (logged fn) (st, [])).

(** What the scanner has established when it invokes the callback while
    closing segment [e]: the other segment [s] is a different one, neither is
    the ring successor of the other, the two pass the straddle test, and the
    indices are handed over smaller first. *)
Definition call_from (segments : list Line) (e s : nat) (c : call) : Prop :=
  ¬ ring_adjacent (length segments) e s ∧
  DoesIntersect (segments !!! e) (segments !!! s) = true ∧
  srcIdx c = Nat.min e s ∧ destIdx c = Nat.max e s.

Definition continued (c : call) : Prop := went_on c = true.

(** A queue whose two slices have one length and whose cursor is within
    them, as [NewEventQueue] builds it and [Next] keeps it. *)
Definition queue_ok (q : eventQueue) : Prop :=
  length (eq q) = length (edata q) ∧ (ix q ≤ length (edata q))%nat.

(** The events [Next] has handed out so far, and the ones still to come. *)
Definition consumed (q : eventQueue) : list event := take (ix q) (eq q).
Definition pending (q : eventQueue) : list event := drop (ix q) (eq q).

(** The events of segment [i] in a list of events, in the order of the
    list. *)
Definition events_of (i : nat) (l : list event) : list event :=
  filter (λ e, edge e = i) l.

(** The endpoint of a segment that comes first in the order of [xyorder],
    and the one that comes last. *)
Definition lo_pt (l : Line) : Pt :=
  if xyorder (l_0 l) (l_1 l) >? 0 then l_1 l else l_0 l.
Definition hi_pt (l : Line) : Pt :=
  if xyorder (l_0 l) (l_1 l) >? 0 then l_0 l else l_1 l.

(** The state of the loop of [FindIntersects] on [segments]: the queue is
    the one that was built, the cursor is within it, and a segment is open
    when an odd number of its events has been taken. *)
Definition open_parity {St : Type} (sort : list event → list event)
    (segments : list Line) (s : @loop_state St) : Prop :=
  edata (lq s) = init_events 0 segments ∧
  eq (lq s) = sort (init_events 0 segments) ∧
  (ix (lq s) ≤ length (eq (lq s)))%nat ∧
  ∀ i, i ∈ isegmap s ↔ Nat.odd (length (events_of i (consumed (lq s)))) = true.

(** The segment with its two endpoints exchanged, and the array in which
    this is done to segment [i] alone. *)
Definition reverse_line (l : Line) : Line := mkLine (l_1 l) (l_0 l).
Definition reverse_at (i : nat) (segments : list Line) : list Line :=
  alter reverse_line i segments.

(** The two tests of the inner loop on the open segment [s] while segment
    [e] is closed: not the same, not ring neighbours, and straddling. *)
Definition reportable (segments : list Line) (e s : nat) : bool :=
  let ns := length segments in
  negb ((e =? s)%nat || ((s + 1) `mod` ns =? e)%nat || ((e + 1) `mod` ns =? s)%nat)
  && DoesIntersect (segments !!! e) (segments !!! s).

(** The pairs an always-continuing callback receives from the inner loop
    run over [segs]. *)
Definition hits (segments : list Line) (e : nat) (segs : list nat)
    : list (nat * nat) :=
  (λ s, (Nat.min e s, Nat.max e s))
    <$> filter (λ s, reportable segments e s = true) segs.

(** The pairs an always-continuing callback receives from the event loop,
    started with the cursor at [k], the events [evs] still to come and the
    open set [open].  [drain_collect] below shows that this is what the
    loop of [FindIntersects] does. *)
Fixpoint all_hits (range_order : nat → list nat → list nat)
    (segments : list Line) (k : nat) (evs : list event) (open : gset nat)
    : list (nat * nat) :=
  match evs with
  | [] => []
  | e :: evs' =>
      if decide (edge e ∈ open) then
        let m := open ∖ {[edge e]} in
        (if decide (size m = 0)%nat then []
         else hits segments (edge e) (range_order (S k) (elements m)))
        ++ all_hits range_order segments (S k) evs' m
      else all_hits range_order segments (S k) evs' ({[edge e]} ∪ open)
  end.

(** No two events of the list are at the same point. *)
Definition tie_free (l : list event) : Prop :=
  ∀ a b, a ∈ l → b ∈ l → ev a = ev b → a = b.

(** No segment ends, in the order of [xyorder], at the point at which
    another segment that is not its ring neighbour begins: no closing event
    is tied with the opening event of a segment it could be reported with. *)
Definition no_open_close_tie (segments : list Line) : Prop :=
  ∀ e s sge sgs,
    segments !! e = Some sge → segments !! s = Some sgs →
    ¬ ring_adjacent (length segments) e s → hi_pt sge ≠ lo_pt sgs.

(** The number, 0 or 1, of events among the first [k] of a queue that
    stand at place [o]. *)
Definition taken (o k : nat) : nat := if decide (o < k)%nat then 1%nat else 0%nat.

(** A third instance of [sort], not stable: one pass that compares each
    element with the one six places before it and exchanges the two when
    they are out of order, then insertion sort.  [w] is the window of the six
    places before the element at the head of [l]. *)
Fixpoint gap_pass (w l : list event) : list event :=
  match l with
  | [] => w
  | x :: l' =>
      match w with
      | [] => x :: l'
      | h :: w' =>
          if Less x h then x :: gap_pass (w' ++ [h]) l'
          else h :: gap_pass (w' ++ [x]) l'
      end
  end.

Definition gap_sort (l : list event) : list event :=
  stable_sort (gap_pass (take 6 l) (drop 6 l)).

(** [n] successive calls of [Next]: what each call returned. *)
Fixpoint next_n (n : nat) (q : eventQueue) : list (option event) :=
  match n with
  | O => []
  | S n' => let '(r, q') := Next q in r :: next_n n' q'
  end.

(** What one event does to the open set in the loop of [FindIntersects]:
    the segment is added when it is absent and deleted when it is present. *)
Definition toggle (open : gset nat) (e : event) : gset nat :=
  if decide (edge e ∈ open) then open ∖ {[edge e]} else {[edge e]} ∪ open.

(** The open set after the events [evs], taken in order. *)
Definition opened (evs : list event) (open : gset nat) : gset nat :=
  foldl toggle open evs.

(** The two indices of a recorded call. *)
Definition call_pair (c : call) : nat * nat := (srcIdx c, destIdx c).

(** A callback that returns [true] whatever it is given. *)
Definition never_stops {St : Type} (fn : @callback St) : Prop :=
  ∀ st src dest ptfn, snd (fn st src dest ptfn) = true.

(** ** Sample inputs *)

(** A solver that is never consulted, and the range order of [elements]. *)
Definition no_solver : Line → Line → Pt * bool := λ _ _, (mkPt 0 0, false).
Definition in_order : nat → list nat → list nat := λ _ l, l.

Definition seg (x0 y0 x1 y1 : Z) : Line := mkLine (mkPt x0 y0) (mkPt x1 y1).

(** The unit square and the bowtie of section 8 of the specification. *)
Definition unit_square : list Line :=
  [seg 0 0 1 0; seg 1 0 1 1; seg 1 1 0 1; seg 0 1 0 0].
Definition bowtie : list Line :=
  [seg 0 0 1 1; seg 1 1 1 0; seg 1 0 0 1; seg 0 1 0 0].

(** Segments 0 and 2 are not ring neighbours and meet at the point (1,0),
    where segment 0 ends and segment 2 begins. *)
Definition touching : list Line :=
  [seg 0 0 1 0; seg 5 5 6 5; seg 1 0 2 1; seg 7 7 8 7].

(** Segments 1 and 3 are not ring neighbours and meet at the point (5,5),
    where segment 1 ends and segment 3 begins. *)
Definition meeting : list Line :=
  [seg 0 0 10 0; seg 4 5 5 5; seg 20 20 21 20; seg 5 5 11 5].

(** Two segments whose four endpoints have four different abscissas. *)
Definition nested : list Line := [seg 0 0 3 0; seg 1 1 2 1].

(** A callback that counts its invocations and stops at the first one. *)
Definition stop_at_once : @callback nat := λ n _ _ _, (S n, false).

End Validate.

(** ** [DoesIntersect] on binary64 numbers *)

Module Float64.
Import PrimFloat.
Local Open Scope float_scope.

(** [type Pt struct { X, Y float64 }] *)
Record Pt : Type := mkPt { X : float; Y : float }.

(** [type Line [2]Pt] *)
Record Line : Type := mkLine { l_0 : Pt; l_1 : Pt }.

(** Modelled from the spec: [maths.Line.IsLeft] is not part of the sources
    at hand.  Section 4.1: "Implemented as the cross product of (B-A) and
    (P-A); no normalization", here with the subtractions and products of
    [float64]. *)
Definition IsLeft (l : Line) (pt : Pt) : float :=
  (X (l_1 l) - X (l_0 l)) * (Y pt - Y (l_0 l))
  - (X pt - X (l_0 l)) * (Y (l_1 l) - Y (l_0 l)).

(** Modelled from the spec: the lexicographic (x, then y) strict order that
    section 4.1 canonicalises with, on [float64] comparisons. *)
Definition xy_before (p q : Pt) : bool :=
  (X p <? X q) || ((X p =? X q) && (Y p <? Y q)).

(** Modelled from the spec: [maths.Line.LeftRightMostAsLine] is not part of
    the sources at hand.  Section 4.1: "returns the same two endpoints ordered
    so the first precedes the second in (x,y) lexicographic order". *)
Definition LeftRightMostAsLine (l : Line) : Line :=
  if xy_before (l_1 l) (l_0 l) then mkLine (l_1 l) (l_0 l) else l.

(** [func DoesIntersect(s1, s2 maths.Line) bool]; [lsign*rsign > 0] is
    [0 <? lsign * rsign]. *)
Definition DoesIntersect (s1 s2 : Line) : bool :=
  let as2 := LeftRightMostAsLine s2 in
  let as1 := LeftRightMostAsLine s1 in
  let lsign := IsLeft as1 (l_0 as2) in
  let rsign := IsLeft as1 (l_1 as2) in
  if 0 <? lsign * rsign then false
  else
    let lsign := IsLeft as2 (l_0 as1) in
    let rsign := IsLeft as2 (l_1 as1) in
    if 0 <? lsign * rsign then false
    else true.



Definition seg (x0 y0 x1 y1 : float) : Line := mkLine (mkPt x0 y0) (mkPt x1 y1).


End Float64.

(** ** Package [log] *)

Module Log.

(** [type Level int] and its constants, [TRACE = Level(iota - 2)] onwards. *)
Definition Level : Type := Z.

Definition TRACE : Level := 0 - 2.
Definition DEBUG : Level := 1 - 2.
Definition INFO : Level := 2 - 2.
Definition WARN : Level := 3 - 2.
Definition ERROR : Level := 4 - 2.
Definition FATAL : Level := 5 - 2.

(** The methods of [Interface] that take a format and arguments. *)
Inductive method : Type := MFatal | MError | MWarn | MInfo | MDebug | MTrace.

Section Logger.

(** The type of the values passed as [args ...interface{}]. *)
Context {Arg : Type}.

(** One call received by the value stored in [logger]. *)
Record entry : Type :=
  mkEntry { meth : method; format : string; args : list Arg }.

(** The package variables.  [sink] is what [logger] has received so far,
    oldest call first; [lock] only serialises [SetLogLevel] and has no
    state of its own in a sequential run. *)
Record globals : Type := mkGlobals {
  sink : list entry;
  level : Level;
  IsError : bool;
  IsWarn : bool;
  IsInfo : bool;
  IsDebug : bool;
  IsTrace : bool }.

Definition set_level (v : Level) (g : globals) : globals :=
  mkGlobals (sink g) v (IsError g) (IsWarn g) (IsInfo g) (IsDebug g) (IsTrace g).
Definition set_IsError (v : bool) (g : globals) : globals :=
  mkGlobals (sink g) (level g) v (IsWarn g) (IsInfo g) (IsDebug g) (IsTrace g).
Definition set_IsWarn (v : bool) (g : globals) : globals :=
  mkGlobals (sink g) (level g) (IsError g) v (IsInfo g) (IsDebug g) (IsTrace g).
Definition set_IsInfo (v : bool) (g : globals) : globals :=
  mkGlobals (sink g) (level g) (IsError g) (IsWarn g) v (IsDebug g) (IsTrace g).
Definition set_IsDebug (v : bool) (g : globals) : globals :=
  mkGlobals (sink g) (level g) (IsError g) (IsWarn g) (IsInfo g) v (IsTrace g).
Definition set_IsTrace (v : bool) (g : globals) : globals :=
  mkGlobals (sink g) (level g) (IsError g) (IsWarn g) (IsInfo g) (IsDebug g) v.

(** The bodies of the [switch] of [SetLogLevel], last case first: each
    body but the last ends in [fallthrough], so it runs the next one. *)
Definition case_error (g : globals) : globals := set_IsError true g.
Definition case_warn (g : globals) : globals := case_error (set_IsWarn true g).
Definition case_info (g : globals) : globals := case_warn (set_IsInfo true g).
Definition case_debug (g : globals) : globals := case_info (set_IsDebug true g).
Definition case_trace (g : globals) : globals := case_debug (set_IsTrace true g).

(** [func SetLogLevel(lvl Level)] *)
Definition SetLogLevel (lvl : Level) (g : globals) : globals :=
  let g := set_IsTrace false g in
  let g := set_IsDebug false g in
  let g := set_IsInfo false g in
  let g := set_IsWarn false g in
  let g := set_IsError false g in
  let g := set_IsTrace false g in
  let lvl :=
    if negb (lvl =? TRACE) && negb (lvl =? DEBUG) && negb (lvl =? INFO)
       && negb (lvl =? WARN) && negb (lvl =? ERROR) && negb (lvl =? FATAL)
    then INFO else lvl in
  let g := set_level lvl g in
  if level g =? TRACE then case_trace g
  else if level g <=? DEBUG then case_debug g
  else if level g <=? INFO then case_info g
  else if level g <=? WARN then case_warn g
  else if level g <=? ERROR then case_error g
  else g.

(** [logger.M(format, args...)] *)
Definition forward (m : method) (fmt : string) (a : list Arg) (g : globals) : globals :=
  mkGlobals (sink g ++ [mkEntry m fmt a]) (level g)
    (IsError g) (IsWarn g) (IsInfo g) (IsDebug g) (IsTrace g).

(** [func Fatal(format string, args ...interface{})] *)
Definition Fatal (fmt : string) (a : list Arg) (g : globals) : globals :=
  forward MFatal fmt a g.

(** [func Error(format string, args ...interface{})] *)
Definition Error (fmt : string) (a : list Arg) (g : globals) : globals :=
  if IsError g then forward MError fmt a g else g.

(** [func Warn(format string, args ...interface{})] *)
Definition Warn (fmt : string) (a : list Arg) (g : globals) : globals :=
  if IsWarn g then forward MWarn fmt a g else g.

(** [func Info(format string, args ...interface{})] *)
Definition Info (fmt : string) (a : list Arg) (g : globals) : globals :=
  if IsInfo g then forward MInfo fmt a g else g.

(** [func Debug(format string, args ...interface{})] *)
Definition Debug (fmt : string) (a : list Arg) (g : globals) : globals :=
  if IsDebug g then forward MDebug fmt a g else g.

(** [func Trace(format string, args ...interface{})] *)
Definition Trace (fmt : string) (a : list Arg) (g : globals) : globals :=
  if IsTrace g then forward MTrace fmt a g else g.

(** The six levels the package defines. *)
Definition defined_level (lvl : Level) : Prop :=
  lvl = TRACE ∨ lvl = DEBUG ∨ lvl = INFO ∨ lvl = WARN ∨ lvl = ERROR ∨ lvl = FATAL.

(** The level whose name a forwarding function bears. *)
Definition severity (m : method) : Level :=
  match m with
  | MFatal => FATAL | MError => ERROR | MWarn => WARN
  | MInfo => INFO | MDebug => DEBUG | MTrace => TRACE
  end.

(** A call of the package function that forwards to method [m]. *)
Definition emit (m : method) (fmt : string) (a : list Arg) (g : globals) : globals :=
  match m with
  | MFatal => Fatal fmt a g | MError => Error fmt a g | MWarn => Warn fmt a g
  | MInfo => Info fmt a g | MDebug => Debug fmt a g | MTrace => Trace fmt a g
  end.

(** A sequence of such calls, first call first. *)
Definition emit_all (calls : list entry) (g : globals) : globals :=
  foldl (λ g c, emit (meth c) (format c) (args c) g) g calls.

(** The level is one of the six, and the flags say which severities are at
    or above it. *)
Definition flags_follow_level (g : globals) : Prop :=
  defined_level (level g) ∧
  IsError g = (level g <=? ERROR) ∧
  IsWarn g = (level g <=? WARN) ∧
  IsInfo g = (level g <=? INFO) ∧
  IsDebug g = (level g <=? DEBUG) ∧
  IsTrace g = (level g <=? TRACE).

(** The level [SetLogLevel] stores for its argument. *)
Definition effective (lvl : Level) : Level :=
  if negb (lvl =? TRACE) && negb (lvl =? DEBUG) && negb (lvl =? INFO)
     && negb (lvl =? WARN) && negb (lvl =? ERROR) && negb (lvl =? FATAL)
  then INFO else lvl.

End Logger.

End Log.

(** ** Package [mbtiles] *)

Module Mbtiles.

(** [func isGzip(b []byte) bool]; [None] stands for an index out of range.
    The conjunction is evaluated from the left and stops at the first
    [false]. *)
Definition isGzip (b : list Byte.byte) : option bool :=
  if (2 <=? length b)%nat then
    match b !! 0%nat with
    | None => None
    | Some b0 =>
        if Byte.eqb b0 Byte.x1f then
          match b !! 1%nat with
          | None => None
          | Some b1 => Some (Byte.eqb b1 Byte.x8b)
          end
        else Some false
    end
  else Some false.

(** [type bounds struct { left, bottom, right, top float64 }], over the
    type [F] of the values [strconv.ParseFloat] returns. *)
Record bounds (F : Type) : Type :=
  mkBounds { left : F; bottom : F; right : F; top : F }.
Arguments mkBounds {F}.
Arguments left {F}.
Arguments bottom {F}.
Arguments right {F}.
Arguments top {F}.

(** [type metaData struct]; the two pointer fields are options. *)
Record metaData (F : Type) : Type := mkMeta {
  name : string;
  mapType : string;
  version : Z;
  description : string;
  format : string;
  mbounds : option (bounds F);
  attribution : option string }.
Arguments mkMeta {F}.
Arguments name {F}.
Arguments mapType {F}.
Arguments version {F}.
Arguments description {F}.
Arguments format {F}.
Arguments mbounds {F}.
Arguments attribution {F}.

(** [type tile struct { zoom, column, row int64; data []byte }] *)
Record tile : Type :=
  mkTile { zoom : Z; column : Z; row : Z; data : list Byte.byte }.

Section Provider.

(** Error values, and [errors.New]. *)
Variable Err : Type.
Variable errors_New : string → Err.

(** [float64], its zero value, and [strconv.ParseFloat(n, 64)], which
    returns a value together with its error. *)
Variable F : Type.
Variable zero_F : F.
Variable ParseFloat : string → F * option Err.

(** [strconv.ParseInt(s, 10, 64)] and [strings.Split(s, ",")]. *)
Variable ParseInt : string → Z * option Err.
Variable Split : string → list string.

(** A row of the [metadata] table as [rows.Scan(&name, &value)] delivers
    it: an error, or the two columns. *)
Definition scanned : Type := Err + (string * string).

(** The zero value of [metaData]. *)
Definition zero_meta : metaData F := mkMeta "" "" 0 "" "" None None.

(** The function literal [fn] in [getMetaData]: it reads and writes the
    variable [err] of the enclosing function. *)
Definition parse_bound (err : option Err) (n : string) : F * option Err :=
  let f := zero_F in
  match err with
  | Some _ => (f, err)
  | None => ParseFloat n
  end.

(** The body of the loop [for rows.Next()] on one row.  The state is the
    pair of [meta] and [err]; [inl] is a [return nil, e]. *)
Definition meta_row (st : metaData F * option Err) (r : scanned)
    : Err + (metaData F * option Err) :=
  let '(meta, err) := st in
  match r with
  | inl e => inl e
  | inr (nm, value) =>
      let meta :=
        if String.eqb nm "name"
        then mkMeta value (mapType meta) (version meta) (description meta)
               (format meta) (mbounds meta) (attribution meta)
        else meta in
      let meta :=
        if String.eqb nm "type"
        then mkMeta (name meta) value (version meta) (description meta)
               (format meta) (mbounds meta) (attribution meta)
        else meta in
      let after_version : Err + (metaData F * option Err) :=
        if String.eqb nm "version" then
          let '(v, err) := ParseInt value in
          let meta := mkMeta (name meta) (mapType meta) v (description meta)
                        (format meta) (mbounds meta) (attribution meta) in
          match err with
          | Some e => inl e
          | None => inr (meta, err)
          end
        else inr (meta, err) in
      match after_version with
      | inl e => inl e
      | inr (meta, err) =>
          let meta :=
            if String.eqb nm "description"
            then mkMeta (name meta) (mapType meta) (version meta) value
                   (format meta) (mbounds meta) (attribution meta)
            else meta in
          let meta :=
            if String.eqb nm "format"
            then mkMeta (name meta) (mapType meta) (version meta)
                   (description meta) value (mbounds meta) (attribution meta)
            else meta in
          let after_bounds : Err + (metaData F * option Err) :=
            if String.eqb nm "bounds" then
              let b := Split value in
              if negb (length b =? 4)%nat
              then inl (errors_New "invalid bounds")
              else
                let '(l, err) := parse_bound err (b !!! 0%nat) in
                let '(bo, err) := parse_bound err (b !!! 1%nat) in
                let '(ri, err) := parse_bound err (b !!! 2%nat) in
                let '(to, err) := parse_bound err (b !!! 3%nat) in
                let meta := mkMeta (name meta) (mapType meta) (version meta)
                              (description meta) (format meta)
                              (Some (mkBounds l bo ri to)) (attribution meta) in
                match err with
                | Some e => inl e
                | None => inr (meta, err)
                end
            else inr (meta, err) in
          match after_bounds with
          | inl e => inl e
          | inr (meta, err) =>
              let meta :=
                if String.eqb nm "attribution"
                then mkMeta (name meta) (mapType meta) (version meta)
                       (description meta) (format meta) (mbounds meta)
                       (Some value)
                else meta in
              inr (meta, err)
          end
      end
  end.

(** The loop over the rows, in the order in which [rows.Next] yields
    them. *)
Fixpoint meta_rows (st : metaData F * option Err) (rows : list scanned)
    : Err + (metaData F * option Err) :=
  match rows with
  | [] => inr st
  | r :: rest =>
      match meta_row st r with
      | inl e => inl e
      | inr st' => meta_rows st' rest
      end
  end.

(** [func getMetaData(db *sql.DB)], which returns a [*metaData] and an
    [error], on what
    [db.Query("SELECT name, value FROM metadata")] returns: an error, or the
    rows.  [inl e] is [(nil, e)], [inr m] is [(&m, nil)]. *)
Definition getMetaData (query : Err + list scanned) : Err + metaData F :=
  match query with
  | inl e => inl e
  | inr rows =>
      match meta_rows (zero_meta, None) rows with
      | inl e => inl e
      | inr (meta, _) => inr meta
      end
  end.

(** A row on which the loop of [getMetaData] goes on: it has been
    scanned, a version parses as an integer, bounds have four parts and each
    parses as a float. *)
Definition row_accepted (r : scanned) : Prop :=
  match r with
  | inl _ => False
  | inr (nm, value) =>
      (nm = "version" → snd (ParseInt value) = None) ∧
      (nm = "bounds" →
         length (Split value) = 4%nat ∧
         ∀ i, (i < 4)%nat → snd (ParseFloat (Split value !!! i)) = None)
  end.

(** What [r.Scan] of the row of [getTile] can give: [sql.ErrNoRows],
    another error, or the four columns. *)
Inductive tile_scan : Type :=
| NoRows
| ScanError (e : Err)
| Scanned (t : tile).

(** [func getTile(db *sql.DB, zoom, column, row int)], which returns a
    [*tile] and an [error], on the outcome of the scan. *)
Definition getTile (r : tile_scan) : Err + tile :=
  match r with
  | Scanned t => inr t
  | NoRows => inr (mkTile 0 0 0 [])
  | ScanError e => inl e
  end.

(** [mvt.Layer], of which the code reads the field [Name], and its zero
    value. *)
Variable Layer : Type.
Variable Layer_Name : Layer → string.
Variable zero_Layer : Layer.

(** Reading all of [gzip.NewReader]; [proto.Unmarshal] followed by
    [mvt.TileFromVTile] and [Layers()]. *)
Variable gunzip : list Byte.byte → Err + list Byte.byte.
Variable decode_layers : list Byte.byte → Err + list Layer.

(** The loop [for _, l := range mvtTile.Layers()] of [MVTLayer], which
    assigns each layer of the wanted name to [*layer]. *)
Definition pick_layer (layerName : string) (layer : Layer) (ls : list Layer) : Layer :=
  foldl (λ layer l, if String.eqb (Layer_Name l) layerName then l else layer)
        layer ls.

(** [func (p Provider) MVTLayer(layerName, tile, tags)], which returns a
    [*mvt.Layer] and an [error], on the outcome of the scan of the tile.  The pointer is [None] when it is
    [nil]; [None] as a whole stands for an index out of range in
    [isGzip]. *)
Definition MVTLayer (layerName : string) (r : tile_scan)
    : option (option Layer * option Err) :=
  let layer := zero_Layer in
  match getTile r with
  | inl e => Some (Some layer, Some e)
  | inr t =>
      match isGzip (data t) with
      | None => None
      | Some gz =>
          let unzipped : Err + list Byte.byte :=
            if gz then gunzip (data t) else inr (data t) in
          match unzipped with
          | inl e => Some (None, Some e)
          | inr d =>
              match decode_layers d with
              | inl e => Some (None, Some e)
              | inr ls => Some (Some (pick_layer layerName layer ls), None)
              end
          end
      end
  end.

End Provider.

(** The seven names [getMetaData] looks for. *)
Definition known_name (nm : string) : bool :=
  String.eqb nm "name" || String.eqb nm "type" || String.eqb nm "version"
  || String.eqb nm "description" || String.eqb nm "format"
  || String.eqb nm "bounds" || String.eqb nm "attribution".

(** The values of the rows named [nm], in the order of the rows. *)
Definition values_of {Err : Type} (nm : string) (rows : list (Err + (string * string)))
    : list string :=
  omap (λ r, match r with
             | inr (k, v) => if String.eqb k nm then Some v else None
             | inl _ => None
             end) rows.

(** Sample collaborators: errors are strings, a float is an integer, every
    string parses (to its length), and a value is split at its commas
    (character 44). *)
Definition sample_ParseInt (s : string) : Z * option string :=
  (Z.of_nat (String.length s), None).
Definition sample_ParseFloat (s : string) : Z * option string :=
  (Z.of_nat (String.length s), None).
Fixpoint sample_Split (s : string) : list string :=
  match s with
  | EmptyString => [EmptyString]
  | String c rest =>
      if Ascii.eqb c (Ascii.ascii_of_nat 44) then EmptyString :: sample_Split rest
      else match sample_Split rest with
           | [] => [String c EmptyString]
           | p :: ps => String c p :: ps
           end
  end.

(** Three rows of a metadata table, and what [getMetaData] makes of
    them. *)
Definition sample_rows : list (string + (string * string)) :=
  [inr ("name", "a"); inr ("bounds", "1,2,3,4"); inr ("name", "b")].
Definition sample_meta : metaData Z :=
  mkMeta "b" "" 0 "" "" (Some (mkBounds 1 1 1 1)) None.

End Mbtiles.

(** * Properties *)

Import Maths Validate.

(** ** The straddle test *)

Section Straddle.
Import PrimFloat SpecFloat FloatOps FloatAxioms.
Local Open Scope float_scope.

(** *** The sign of a rounded product *)









End Straddle.

(** ** The logger *)

Section LogFacts.
Context {Arg : Type}.
Implicit Types (g : @Log.globals Arg) (lvl : Log.Level).

Lemma SetLogLevel_undefined g lvl :
  ¬ Log.defined_level lvl → Log.SetLogLevel lvl g = Log.SetLogLevel Log.INFO g.
Proof.
  intros Hn. unfold Log.defined_level in Hn. unfold Log.SetLogLevel.
  assert (lvl ≠ Log.TRACE ∧ lvl ≠ Log.DEBUG ∧ lvl ≠ Log.INFO ∧
          lvl ≠ Log.WARN ∧ lvl ≠ Log.ERROR ∧ lvl ≠ Log.FATAL) as (?&?&?&?&?&?)
    by tauto.
  repeat match goal with
         | H : lvl ≠ ?c |- _ => apply Z.eqb_neq in H; rewrite H; clear H
         end.
  reflexivity.
Qed.

Lemma SetLogLevel_chain_defined g lvl :
  Log.defined_level lvl →
  let g' := Log.SetLogLevel lvl g in
  (Log.IsTrace g' = true → Log.IsDebug g' = true) ∧
  (Log.IsDebug g' = true → Log.IsInfo g' = true) ∧
  (Log.IsInfo g' = true → Log.IsWarn g' = true) ∧
  (Log.IsWarn g' = true → Log.IsError g' = true).
Proof.
  intros [-> | [-> | [-> | [-> | [-> | ->]]]]]; cbn; auto.
Qed.

(** C10. After [SetLogLevel lvl], whatever [lvl] is: each gating flag
    implies the next coarser one ([IsTrace], [IsDebug], [IsInfo], [IsWarn],
    [IsError]); a level that is none of the six defined ones has the effect
    of [INFO]; and [Fatal] hands its call to the logger without looking at
    any flag, at level [FATAL] as at any other. *)
Theorem SetLogLevel_gating g lvl :
  let g' := Log.SetLogLevel lvl g in
  ((Log.IsTrace g' = true → Log.IsDebug g' = true) ∧
   (Log.IsDebug g' = true → Log.IsInfo g' = true) ∧
   (Log.IsInfo g' = true → Log.IsWarn g' = true) ∧
   (Log.IsWarn g' = true → Log.IsError g' = true)) ∧
  (¬ Log.defined_level lvl →
     g' = Log.SetLogLevel Log.INFO g ∧ Log.level g' = Log.INFO) ∧
  (∀ fmt a,
     Log.sink (Log.Fatal fmt a g') = Log.sink g' ++ [Log.mkEntry Log.MFatal fmt a]) ∧
  (∀ fmt a,
     Log.sink (Log.Fatal fmt a (Log.SetLogLevel Log.FATAL g))
     = Log.sink g ++ [Log.mkEntry Log.MFatal fmt a]).
Proof.
  intros g'. split; [|split; [|split]].
  - destruct (decide (Log.defined_level lvl)) as [Hd | Hd].
    + by apply SetLogLevel_chain_defined.
    + subst g'. rewrite (SetLogLevel_undefined _ _ Hd).
      apply SetLogLevel_chain_defined. unfold Log.defined_level; auto.
  - intros Hd. subst g'. rewrite (SetLogLevel_undefined _ _ Hd). done.
  - done.
  - done.
Qed.

End LogFacts.

(** ** The scanner: what every run has *)

Section ScannerFacts.
Context {St : Type}.
Variable Intersect : Line → Line → Pt * bool.
Variable range_order : nat → list nat → list nat.
Variable segments : list Line.
Variable fn : @callback St.

Local Abbreviation body := (loop_body Intersect range_order segments).
Local Abbreviation run := (drain Intersect range_order).

(** A property kept by every iteration holds whenever the loop is
    observed. *)
Lemma drain_preserves (J : @loop_state St → Prop) :
  (∀ s, J s → J (flow_state (body fn s))) →
  ∀ fuel s, J s → J (flow_state (run fuel segments fn s)).
Proof.
  intros Hstep fuel. induction fuel as [|fuel IH]; intros s Hs; [done|].
  simpl. specialize (Hstep s Hs).
  destruct (body fn s) as [s'|s']; simpl in *; auto.
Qed.

(** The queue is only ever advanced. *)
Lemma loop_body_queue (s : @loop_state St) :
  let s' := flow_state (body fn s) in
  edata (lq s') = edata (lq s) ∧ eq (lq s') = eq (lq s) ∧
  (ix (lq s') = ix (lq s) ∨ ix (lq s') = S (ix (lq s))).
Proof.
  unfold loop_body, Next. simpl.
  repeat (case_decide || case_match); simplify_eq/=; auto.
Qed.

Lemma loop_body_running_ix (s s' : @loop_state St) :
  body fn s = Running s' →
  ix (lq s') = S (ix (lq s)) ∧ (ix (lq s) < length (edata (lq s)))%nat.
Proof.
  unfold loop_body, Next.
  repeat (case_decide || case_match); intros; simplify_eq/=; split; auto; lia.
Qed.

Lemma drain_running_ix fuel (s s' : @loop_state St) :
  run fuel segments fn s = Running s' → ix (lq s') = (ix (lq s) + fuel)%nat.
Proof.
  revert s. induction fuel as [|fuel IH]; intros s; simpl.
  - intros [= ->]. lia.
  - destruct (body fn s) as [s1|s1] eqn:Hb; [|done].
    intros H. apply IH in H. apply loop_body_running_ix in Hb as [Hb _]. lia.
Qed.

(** Once the loop is left, more fuel changes nothing. *)
Lemma drain_returned_mono fuel fuel' (s s' : @loop_state St) :
  run fuel segments fn s = Returned s' → (fuel ≤ fuel')%nat →
  run fuel' segments fn s = Returned s'.
Proof.
  revert fuel' s. induction fuel as [|fuel IH]; intros fuel' s; simpl; [done|].
  intros H Hle. destruct fuel' as [|fuel']; [lia|]. simpl.
  destruct (body fn s) as [s1|s1]; [|done]. apply IH; [done|lia].
Qed.

Lemma loop_body_queue_ok (s : @loop_state St) :
  queue_ok (lq s) → queue_ok (lq (flow_state (body fn s))).
Proof.
  unfold queue_ok, loop_body, Next. intros [Hl Hi].
  repeat (case_decide || case_match); simplify_eq/=; split; auto; lia.
Qed.

(** The loop is left after at most one iteration for each event that is
    still in the queue, and one more. *)
Lemma drain_returns fuel (s : @loop_state St) :
  queue_ok (lq s) → (length (edata (lq s)) - ix (lq s) < fuel)%nat →
  ∃ s', run fuel segments fn s = Returned s'.
Proof.
  revert s. induction fuel as [|fuel IH]; intros s Hok Hf; [lia|].
  simpl. destruct (body fn s) as [s1|s1] eqn:Hb; [|eauto].
  pose proof (loop_body_queue_ok s Hok) as Hok1.
  pose proof (loop_body_queue s) as (He & _ & _).
  pose proof (loop_body_running_ix _ _ Hb) as [Hix Hlt].
  rewrite Hb in Hok1, He. simpl in *.
  apply IH; [done|]. destruct Hok1 as [_ Hle]. rewrite He. lia.
Qed.

End ScannerFacts.

(** ** The scanner observed through a recording callback *)

Section RecordedRuns.
Context {St : Type}.
Variable sort : list event → list event.
Variable Intersect : Line → Line → Pt * bool.
Variable range_order : nat → list nat → list nat.
Variable segments : list Line.
Variable fn : @callback St.

Local Abbreviation body := (loop_body Intersect range_order segments).
Local Abbreviation run := (drain Intersect range_order).

(** *** The inner loop *)

Lemma test_open_logged e segs st log :
  let r := test_open Intersect segments (logged fn) e segs (st, log) in
  ∃ new,
    snd (fst r) = log ++ new ∧
    Forall (λ c, ∃ s, s ∈ segs ∧ call_from segments e s c) new ∧
    (snd r = true → Forall continued new) ∧
    (snd r = false →
       ∃ pre c, new = pre ++ [c] ∧ Forall continued pre ∧ went_on c = false).
Proof.
  revert st log. induction segs as [|s rest IH]; intros st log.
  { exists []. simpl. rewrite app_nil_r. repeat split; auto. done. }
  assert (∀ new, Forall (λ c, ∃ s0, s0 ∈ rest ∧ call_from segments e s0 c) new →
                 Forall (λ c, ∃ s0, s0 ∈ s :: rest ∧ call_from segments e s0 c) new)
    as Hweak.
  { intros new H. eapply Forall_impl; [exact H|].
    intros c (s0 & ? & ?). exists s0. split; [by right|done]. }
  simpl.
  destruct ((e =? s)%nat || ((s + 1) `mod` length segments =? e)%nat
            || ((e + 1) `mod` length segments =? s)%nat) eqn:Hadj.
  { destruct (IH st log) as (new & ? & ? & ? & ?). exists new. auto. }
  destruct (DoesIntersect (segments !!! e) (segments !!! s)) eqn:Hint; simpl.
  2:{ destruct (IH st log) as (new & ? & ? & ? & ?). exists new. auto. }
  set (pair := if (s <? e)%nat then (s, e) else (e, s)).
  assert (pair = (Nat.min e s, Nat.max e s)) as Hpair.
  { subst pair. destruct (Nat.ltb_spec s e); f_equal; lia. }
  rewrite Hpair.
  set (ptfn := λ _ : unit, fst (Intersect (segments !!! e) (segments !!! s))).
  destruct (fn st (Nat.min e s) (Nat.max e s) ptfn) as [st' b] eqn:Hfn.
  set (c := mkCall (e `min` s) (e `max` s) b).
  assert (logged fn (st, log) (Nat.min e s) (Nat.max e s) ptfn
          = ((st', log ++ [c]), b)) as ->.
  { unfold logged. simpl. by rewrite Hfn. }
  assert (call_from segments e s c) as Hc.
  { unfold call_from, ring_adjacent. repeat split; auto.
    apply orb_false_elim in Hadj as [Hadj H3].
    apply orb_false_elim in Hadj as [H1 H2].
    apply Nat.eqb_neq in H1, H2, H3. intros [?|[?|?]]; congruence. }
  destruct b; simpl.
  - destruct (IH st' (log ++ [c])) as (new & Hlog & Hall & Ht & Hf).
    exists (c :: new). rewrite Hlog, <- app_assoc. simpl. split; [done|].
    split; [|split].
    + constructor; [exists s; split; [by left|done]|auto].
    + intros Hr. constructor; [done|auto].
    + intros Hr. destruct (Hf Hr) as (pre & c' & -> & ? & ?).
      exists (c :: pre), c'. repeat split; auto. by constructor.
  - exists [c]. split; [done|]. split; [|split].
    + constructor; [exists s; split; [by left|done]|done].
    + done.
    + intros _. exists [], c. auto.
Qed.

(** The recording callback leaves the run of [fn] as it is. *)
Lemma test_open_logged_erase e segs st log :
  let r := test_open Intersect segments (logged fn) e segs (st, log) in
  (fst (fst r), snd r) = test_open Intersect segments fn e segs st.
Proof.
  revert st log. induction segs as [|s rest IH]; intros st log; [done|].
  simpl.
  destruct ((e =? s)%nat || ((s + 1) `mod` length segments =? e)%nat
            || ((e + 1) `mod` length segments =? s)%nat); [apply IH|].
  destruct (DoesIntersect (segments !!! e) (segments !!! s)); simpl; [|apply IH].
  destruct (if (s <? e)%nat then (s, e) else (e, s)) as [src dest].
  unfold logged at 1 3. simpl.
  destruct (fn st src dest _) as [st' b]. destruct b; simpl; [apply IH|done].
Qed.

(** *** The event loop under a recording callback *)

Local Abbreviation log_of s := (snd (cbst s)).

(** What one iteration adds to the log.  An iteration that leaves the loop
    with a longer log has moved the cursor past the event it was closing, and
    the last call it made returned [false]. *)
Lemma loop_body_logged (s : @loop_state (St * list call)) :
  let f := body (logged fn) s in
  ∃ new,
    log_of (flow_state f) = log_of s ++ new ∧
    Forall (λ c, ∃ e s0, call_from segments e s0 c) new ∧
    match f with
    | Running _ => Forall continued new
    | Returned s' =>
        new = [] ∨
        (ix (lq s') = S (ix (lq s)) ∧
         ∃ pre c, new = pre ++ [c] ∧ Forall continued pre ∧ went_on c = false)
    end.
Proof.
  unfold loop_body, Next.
  destruct (decide (length (edata (lq s)) ≤ ix (lq s))%nat).
  { exists []. simpl. rewrite app_nil_r. auto. }
  destruct (eq (lq s) !! ix (lq s)) as [e|].
  2:{ exists []. simpl. rewrite app_nil_r. auto. }
  destruct (decide (edge e ∈ isegmap s)).
  2:{ exists []. simpl. rewrite app_nil_r. auto. }
  destruct (decide (size (isegmap s ∖ {[edge e]}) = 0)%nat).
  { exists []. simpl. rewrite app_nil_r. auto. }
  simpl.
  set (segs := range_order (S (ix (lq s))) (elements (isegmap s ∖ {[edge e]}))).
  destruct (cbst s) as [st log] eqn:Hst.
  destruct (test_open_logged (edge e) segs st log) as (new & Hlog & Hall & Ht & Hf).
  destruct (test_open Intersect segments (logged fn) (edge e) segs (st, log))
    as [st' go_on]. simpl in *.
  exists new. split; [by destruct go_on|]. split.
  { eapply Forall_impl; [exact Hall|]. intros c (s0 & _ & ?). eauto. }
  destruct go_on; simpl; auto.
Qed.

Lemma drain_logged fuel (s : @loop_state (St * list call)) :
  ∃ new,
    log_of (flow_state (run fuel segments (logged fn) s)) = log_of s ++ new ∧
    Forall (λ c, ∃ e s0, call_from segments e s0 c) new ∧
    (Forall continued new ∨
     ∃ k sk s' pre c,
       run k segments (logged fn) s = Running sk ∧
       body (logged fn) sk = Returned s' ∧
       run fuel segments (logged fn) s = Returned s' ∧
       ix (lq s') = S (ix (lq sk)) ∧
       new = pre ++ [c] ∧ Forall continued pre ∧ went_on c = false ∧
       log_of sk `prefix_of` log_of s ++ pre).
Proof.
  revert s. induction fuel as [|fuel IH]; intros s.
  { exists []. simpl. rewrite app_nil_r. auto. }
  simpl. destruct (loop_body_logged s) as (new1 & Hlog1 & Hall1 & Hshape).
  destruct (body (logged fn) s) as [s1|s1] eqn:Hb; simpl in *.
  - destruct (IH s1) as (new2 & Hlog2 & Hall2 & Hshape2).
    exists (new1 ++ new2). rewrite Hlog2, Hlog1, app_assoc.
    split; [done|]. split; [by apply Forall_app|].
    destruct Hshape2 as [Hc | (k & sk & s' & pre & c & Hk & Hbk & Hrun & Hix & -> & Hpre & Hc & Hpx)].
    + left. by apply Forall_app.
    + right. exists (S k), sk, s', (new1 ++ pre), c. simpl. rewrite Hb.
      repeat split; auto.
      * by rewrite app_assoc.
      * by apply Forall_app.
      * by rewrite app_assoc, <- Hlog1.
  - exists new1. split; [done|]. split; [done|].
    destruct Hshape as [-> | (Hix & pre & c & -> & Hpre & Hc)]; [left; constructor|].
    right. exists 0%nat, s, s1, pre, c. simpl. repeat split; auto.
    by apply prefix_app_r.
Qed.

(** A log in which every call but the last continued has nothing after a
    call that did not. *)
Lemma stop_is_last (pre post pre' : list call) (c c' : call) :
  pre ++ c :: post = pre' ++ [c'] → Forall continued pre' → went_on c = false →
  post = [] ∧ pre = pre' ∧ c = c'.
Proof.
  intros Heq Hall Hc. destruct post as [|d post] using rev_ind.
  - by apply app_inj_tail in Heq as [-> ->].
  - clear IHpost. rewrite app_comm_cons, app_assoc in Heq.
    apply app_inj_tail in Heq as [<- _].
    apply Forall_app in Hall as [_ Hall]. inversion Hall as [|? ? Hc' _]; subst.
    unfold continued in Hc'. congruence.
Qed.

(** *** Every call the scanner makes *)

Lemma calls_of_scan st :
  (3 ≤ length segments)%nat →
  calls_of sort Intersect range_order segments fn st
  = log_of (scan sort Intersect range_order segments (logged fn) (st, [])).
Proof.
  intros Hn. unfold calls_of, FindIntersects.
  destruct (Nat.ltb_spec (length segments) 3); [lia|done].
Qed.

Lemma calls_of_short st :
  (length segments < 3)%nat →
  calls_of sort Intersect range_order segments fn st = [].
Proof.
  intros Hn. unfold calls_of, FindIntersects.
  destruct (Nat.ltb_spec (length segments) 3); [done|lia].
Qed.

Lemma calls_of_call_from st :
  Forall (λ c, ∃ e s0, call_from segments e s0 c)
    (calls_of sort Intersect range_order segments fn st).
Proof.
  destruct (Nat.lt_ge_cases (length segments) 3) as [Hn|Hn].
  { rewrite calls_of_short by done. constructor. }
  rewrite calls_of_scan by done. unfold scan.
  destruct (drain_logged (S (2 * length segments))
              (loop_init sort segments (st, []))) as (new & -> & Hall & _).
  done.
Qed.

(** The recording callback does not change what [FindIntersects] does to
    the state of [fn]. *)
Lemma loop_body_logged_erase (s : @loop_state (St * list call)) :
  let erase := λ s : @loop_state (St * list call),
    mkLoop (lq s) (isegmap s) (fst (cbst s)) in
  match body (logged fn) s, body fn (erase s) with
  | Running s1, Running s2 | Returned s1, Returned s2 => erase s1 = s2
  | _, _ => False
  end.
Proof.
  unfold loop_body, Next. simpl.
  destruct (decide (length (edata (lq s)) ≤ ix (lq s))%nat); [done|].
  destruct (eq (lq s) !! ix (lq s)) as [e|]; [|done].
  destruct (decide (edge e ∈ isegmap s)); [|done].
  destruct (decide (size (isegmap s ∖ {[edge e]}) = 0)%nat); [done|].
  simpl. destruct (cbst s) as [st log]. simpl.
  pose proof (test_open_logged_erase (edge e)
    (range_order (S (ix (lq s))) (elements (isegmap s ∖ {[edge e]}))) st log) as H.
  simpl in H. rewrite <- H.
  destruct (test_open Intersect segments (logged fn) _ _ _) as [[st' log'] b].
  by destruct b.
Qed.

Lemma FindIntersects_logged_erase st :
  fst (FindIntersects sort Intersect range_order segments (logged fn) (st, []))
  = FindIntersects sort Intersect range_order segments fn st.
Proof.
  unfold FindIntersects. destruct (length segments <? 3)%nat; [done|].
  unfold scan.
  set (erase := λ s : @loop_state (St * list call),
         mkLoop (lq s) (isegmap s) (fst (cbst s))).
  change (loop_init sort segments st) with (erase (loop_init sort segments (st, []))).
  generalize (loop_init sort segments (st, @nil call)).
  generalize (S (2 * length segments)). intros fuel.
  assert (∀ s, erase (flow_state (run fuel segments (logged fn) s))
               = flow_state (run fuel segments fn (erase s))) as H.
  { induction fuel as [|fuel IH]; intros s; [done|]. simpl.
    pose proof (loop_body_logged_erase s) as Hb. cbv zeta in Hb. fold erase in Hb.
    destruct (body (logged fn) s), (body fn (erase s)); try done;
      rewrite <- Hb; simpl; auto. }
  intros s. by rewrite <- H.
Qed.

(** C2. Whatever the segment array, the callback and the orders chosen by
    the sort and by the iteration over the open set, no invocation of the
    callback by [FindIntersects] is on a pair [(i, j)] with [i = j], with
    [j = (i+1) mod n] or with [i = (j+1) mod n]: a pair [(i, (i+1) mod n)]
    is never reported, whatever the geometry of the two edges. *)
Theorem FindIntersects_adjacency_exclusion st :
  Forall (λ c,
            let n := length segments in
            srcIdx c ≠ destIdx c ∧
            destIdx c ≠ ((srcIdx c + 1) `mod` n)%nat ∧
            srcIdx c ≠ ((destIdx c + 1) `mod` n)%nat)
    (calls_of sort Intersect range_order segments fn st).
Proof.
  eapply Forall_impl; [apply calls_of_call_from|].
  intros c (e & s0 & Hadj & _ & Hsrc & Hdest). simpl.
  unfold ring_adjacent in Hadj. rewrite Hsrc, Hdest.
  destruct (Nat.le_ge_cases e s0).
  - rewrite Nat.min_l, Nat.max_r by done. tauto.
  - rewrite Nat.min_r, Nat.max_l by done.
    repeat split; intros ?; apply Hadj; auto.
Qed.

(** C7. Every invocation of the callback by [FindIntersects] receives
    [srcIdx < destIdx], the two being the smaller and the larger of the
    indices of two segments that pass the straddle test. *)
Theorem FindIntersects_ordered_pair st :
  Forall (λ c,
            (srcIdx c < destIdx c)%nat ∧
            ∃ e s0,
              DoesIntersect (segments !!! e) (segments !!! s0) = true ∧
              srcIdx c = Nat.min e s0 ∧ destIdx c = Nat.max e s0)
    (calls_of sort Intersect range_order segments fn st).
Proof.
  eapply Forall_impl; [apply calls_of_call_from|].
  intros c (e & s0 & Hadj & Hint & Hsrc & Hdest). simpl. split; [|eauto].
  assert (e ≠ s0) by (intros ->; apply Hadj; by left). lia.
Qed.

(** C3. If an invocation of the callback returns [false], it is the last
    one, and the event that was being closed is the last one taken from the
    queue: after a number [k] of iterations in which the loop was still
    running and that call had not been made, iteration [k+1] leaves the loop
    in the state [FindIntersects] returns with, its cursor at [k+1]. *)
Theorem FindIntersects_early_abort st pre c post :
  calls_of sort Intersect range_order segments fn st = pre ++ c :: post →
  went_on c = false →
  post = [] ∧
  ∃ k sk,
    let final := scan sort Intersect range_order segments (logged fn) (st, []) in
    run k segments (logged fn) (loop_init sort segments (st, [])) = Running sk ∧
    ix (lq sk) = k ∧
    log_of sk `prefix_of` pre ∧
    body (logged fn) sk = Returned final ∧
    ix (lq final) = S k ∧
    log_of final = pre ++ [c].
Proof.
  intros Hlog Hc.
  destruct (Nat.lt_ge_cases (length segments) 3) as [Hn|Hn].
  { rewrite calls_of_short in Hlog by done. by destruct pre. }
  rewrite calls_of_scan in Hlog by done. unfold scan in *.
  remember (S (2 * length segments)) as fuel eqn:Hfuel. clear Hfuel.
  destruct (drain_logged fuel (loop_init sort segments (st, [])))
    as (new & Hnew & _ & Hshape).
  rewrite Hnew in Hlog. simpl in Hnew, Hlog.
  destruct Hshape as [Hall | (k & sk & s' & pre' & c' & Hk & Hbk & Hrun & Hix & -> & Hpre & Hc' & Hpx)].
  { subst new. apply Forall_app in Hall as [_ Hall].
    inversion Hall as [|? ? Hcc _]; subst. unfold continued in Hcc. congruence. }
  symmetry in Hlog. destruct (stop_is_last _ _ _ _ _ Hlog Hpre Hc) as (-> & -> & ->).
  split; [done|]. exists k, sk. simpl.
  pose proof (drain_running_ix _ _ _ _ _ _ _ Hk) as Hixk. simpl in Hixk.
  rewrite Hrun. simpl. repeat split; auto.
  - lia.
  - rewrite Hrun in Hnew. done.
Qed.

(** C4. On fewer than three segments [FindIntersects] never invokes its
    callback and leaves the callback state alone, and [IsSimple] is
    [true]. *)
Theorem FindIntersects_short_input st :
  (length segments < 3)%nat →
  calls_of sort Intersect range_order segments fn st = [] ∧
  FindIntersects sort Intersect range_order segments fn st = st ∧
  IsSimple sort Intersect range_order segments = true.
Proof.
  intros Hn. split; [by apply calls_of_short|].
  unfold IsSimple, FindIntersects.
  destruct (Nat.ltb_spec (length segments) 3); [done|lia].
Qed.

End RecordedRuns.

(** ** The open set *)

Lemma xyorder_cases (p q : Pt) :
  (xyorder p q = -1 ∧ xyorder q p = 1) ∨
  (xyorder p q = 1 ∧ xyorder q p = -1) ∨
  (xyorder p q = 0 ∧ p = q).
Proof.
  destruct p as [px py], q as [qx qy]. unfold xyorder. simpl.
  repeat match goal with
         | |- context [?a >? ?b] => destruct (Z.gtb_spec a b)
         | |- context [?a <? ?b] => destruct (Z.ltb_spec a b)
         end; try lia; auto.
  right. right. split; [done|]. f_equal; lia.
Qed.

Lemma events_of_app i l1 l2 :
  events_of i (l1 ++ l2) = events_of i l1 ++ events_of i l2.
Proof. apply filter_app. Qed.

Lemma events_of_elem i l (a : event) : a ∈ events_of i l → a ∈ l.
Proof. unfold events_of. rewrite list_elem_of_filter. tauto. Qed.

Lemma events_of_segment_events i j sg :
  events_of i (segment_events j sg)
  = if decide (j = i) then segment_events j sg else [].
Proof.
  unfold events_of, segment_events.
  destruct (xyorder _ _ <? 0); cbn; repeat case_decide; simplify_eq/=; done.
Qed.

(** The construction writes exactly two events for each segment. *)
Lemma events_of_init_events i j segs :
  events_of i (init_events j segs)
  = match segs !! (i - j)%nat with
    | Some sg => if decide (j ≤ i)%nat then segment_events i sg else []
    | None => []
    end.
Proof.
  revert j. induction segs as [|sg rest IH]; intros j; simpl; [done|].
  rewrite events_of_app, events_of_segment_events, IH.
  destruct (decide (j = i)) as [->|Hne].
  - rewrite Nat.sub_diag. simpl. rewrite decide_True by lia.
    replace (i - S i)%nat with 0%nat by lia.
    destruct (rest !! 0%nat); [|by rewrite app_nil_r].
    rewrite decide_False by lia. by rewrite app_nil_r.
  - simpl. destruct (decide (j ≤ i)%nat).
    + replace (i - j)%nat with (S (i - S j)) by lia. simpl.
      destruct (rest !! (i - S j)%nat); [|done]. by rewrite decide_True by lia.
    + assert (i - j = 0)%nat as -> by lia. simpl.
      destruct (rest !! (i - S j)%nat); [|done]. by rewrite decide_False by lia.
Qed.

Lemma length_segment_events i sg : length (segment_events i sg) = 2%nat.
Proof. unfold segment_events. by destruct (_ <? 0). Qed.

Lemma length_init_events j segs :
  length (init_events j segs) = (2 * length segs)%nat.
Proof.
  revert j. induction segs as [|sg rest IH]; intros j; simpl; [done|].
  rewrite length_app, length_segment_events, IH. lia.
Qed.

Section OpenSet.
Context {St : Type}.
Variable sort : list event → list event.
Variable Intersect : Line → Line → Pt * bool.
Variable range_order : nat → list nat → list nat.
Variable segments : list Line.
Variable fn : @callback St.
Hypothesis sort_ok : sort_contract sort.

Local Abbreviation body := (loop_body Intersect range_order segments).
Local Abbreviation run := (drain Intersect range_order).

(** The events of segment [i] in the sorted queue. *)
Lemma events_of_sorted i :
  events_of i (sort (init_events 0 segments))
  ≡ₚ match segments !! i with Some sg => segment_events i sg | None => [] end.
Proof.
  destruct (sort_ok (init_events 0 segments)) as [Hperm _].
  unfold events_of at 1. rewrite Hperm.
  fold (events_of i (init_events 0 segments)).
  rewrite events_of_init_events, Nat.sub_0_r.
  destruct (segments !! i); [|done]. by rewrite decide_True by lia.
Qed.

(** What one iteration does to the queue and to the open set, whatever the
    callback does. *)
Lemma loop_body_open_set (s : @loop_state St) :
  let s' := flow_state (body fn s) in
  match Next (lq s) with
  | (None, q') => lq s' = q' ∧ isegmap s' = isegmap s
  | (Some e, q') =>
      lq s' = q' ∧
      isegmap s' = if decide (edge e ∈ isegmap s)
                   then isegmap s ∖ {[edge e]} else {[edge e]} ∪ isegmap s
  end.
Proof.
  unfold loop_body. destruct (Next (lq s)) as [[e|] q']; [|done].
  repeat (case_decide || case_match); simplify_eq/=; done.
Qed.

Lemma open_parity_init (st : St) :
  open_parity sort segments (loop_init sort segments st).
Proof.
  unfold open_parity, loop_init, NewEventQueue, consumed. simpl.
  repeat split; try lia; [set_solver|done].
Qed.

Lemma sorted_length : length (sort (init_events 0 segments))
                      = length (init_events 0 segments).
Proof. destruct (sort_ok (init_events 0 segments)) as [Hp _]. by rewrite Hp. Qed.

(** The fuel of [scan] is enough: the loop of [FindIntersects] is left. *)
Lemma scan_returns (st : St) :
  ∃ s, run (S (2 * length segments)) segments fn (loop_init sort segments st)
       = Returned s ∧
       scan sort Intersect range_order segments fn st = s.
Proof.
  destruct (drain_returns Intersect range_order segments fn
              (S (2 * length segments)) (loop_init sort segments st))
    as [s Hs].
  - unfold queue_ok. simpl. split; [apply sorted_length|lia].
  - simpl. rewrite length_init_events. lia.
  - exists s. split; [done|]. unfold scan. by rewrite Hs.
Qed.

Lemma open_parity_step (s : @loop_state St) :
  open_parity sort segments s →
  open_parity sort segments (flow_state (body fn s)).
Proof.
  intros (Hed & Heq & Hix & Hopen).
  pose proof (loop_body_open_set s) as Hstep. cbv zeta in Hstep.
  unfold Next in Hstep.
  destruct (decide (length (edata (lq s)) ≤ ix (lq s))%nat) as [Hend|Hmore].
  { destruct Hstep as [Hq Hm]. unfold open_parity. rewrite Hq, Hm. done. }
  assert (ix (lq s) < length (eq (lq s)))%nat as Hlt.
  { rewrite Heq, sorted_length, <- Hed. lia. }
  destruct (lookup_lt_is_Some_2 _ _ Hlt) as [e He]. rewrite He in Hstep.
  destruct Hstep as [Hq Hm]. unfold open_parity. rewrite Hq, Hm. simpl.
  split; [done|]. split; [done|]. split; [lia|]. intros i.
  unfold consumed in *; simpl; rewrite (take_S_r _ _ _ He), events_of_app;
    rewrite length_app, Nat.odd_add; unfold events_of at 2;
    cbn [filter list_filter];
    pose proof (Hopen (edge e)) as Hopene; specialize (Hopen i);
    destruct (Nat.odd (length (events_of i (take (ix (lq s)) (eq (lq s))))));
    destruct (decide (edge e ∈ isegmap s));
    destruct (decide (edge e = i)) as [<-|Hne];
    rewrite ?decide_True, ?decide_False by done; cbn;
    split; intros Hi; try done; try set_solver.
Qed.

Lemma open_parity_drain fuel (st : St) :
  open_parity sort segments
    (flow_state (run fuel segments fn (loop_init sort segments st))).
Proof.
  apply drain_preserves; [apply open_parity_step|apply open_parity_init].
Qed.

Lemma events_of_split (q : eventQueue) i :
  events_of i (eq q) = events_of i (consumed q) ++ events_of i (pending q).
Proof.
  unfold consumed, pending. by rewrite <- events_of_app, take_drop.
Qed.

(** Of the two events of a segment, the one that the sorted queue hands out
    first is at the endpoint [lo_pt], the other at [hi_pt]. *)
Lemma first_event_is_lower sg i (a b : event) :
  [a; b] ≡ₚ segment_events i sg → not_after a b →
  ev a = lo_pt sg ∧ ev b = hi_pt sg.
Proof.
  intros Hperm Hord. unfold not_after, Less in Hord.
  apply Z.eqb_neq in Hord. unfold lo_pt, hi_pt.
  assert ((ev a = l_0 sg ∧ ev b = l_1 sg) ∨ (ev a = l_1 sg ∧ ev b = l_0 sg))
    as [[Ha Hb]|[Ha Hb]].
  { unfold segment_events in Hperm.
    destruct (_ <? 0); apply Permutation_length_2 in Hperm;
      destruct Hperm as [[-> ->]|[-> ->]]; simpl; auto. }
  - rewrite Ha, Hb in *.
    destruct (xyorder_cases (l_0 sg) (l_1 sg)) as [[H1 H2]|[[H1 H2]|[H1 H2]]];
      rewrite H1; simpl; auto. congruence.
  - rewrite Ha, Hb in *.
    destruct (xyorder_cases (l_0 sg) (l_1 sg)) as [[H1 H2]|[[H1 H2]|[H1 H2]]];
      rewrite H1; simpl; auto; congruence.
Qed.

(** C5. Whenever the event loop is observed (after any number [k] of
    iterations, also when it has been left), a segment is in the open set
    if and only if exactly one of its two events has been taken from the
    queue; and then the event taken is the one at the endpoint that comes
    first in the (x, y) order, the one still in the queue is at the endpoint
    that comes last. *)
Theorem open_set_invariant k (st : St) i :
  let s := flow_state (run k segments fn (loop_init sort segments st)) in
  (i ∈ isegmap s ↔ length (events_of i (consumed (lq s))) = 1%nat) ∧
  (i ∈ isegmap s ↔
     ∃ sg a b,
       segments !! i = Some sg ∧
       events_of i (consumed (lq s)) = [a] ∧
       events_of i (pending (lq s)) = [b] ∧
       ev a = lo_pt sg ∧ ev b = hi_pt sg) ∧
  (∀ sg, segments !! i = Some sg →
         length (events_of i (eq (lq s))) = 2%nat ∧
         events_of i (edata (lq s)) = segment_events i sg).
Proof.
  intros s. destruct (open_parity_drain k st) as (Hed & Heq & Hix & Hopen).
  fold s in Hed, Heq, Hix, Hopen. specialize (Hopen i).
  pose proof (events_of_split (lq s) i) as Hsplit.
  pose proof (events_of_sorted i) as Htotal. rewrite <- Heq in Htotal.
  assert (StronglySorted not_after (consumed (lq s) ++ pending (lq s))) as Hsorted.
  { unfold consumed, pending. rewrite take_drop, Heq.
    by destruct (sort_ok (init_events 0 segments)). }
  assert (i ∈ isegmap s ↔ length (events_of i (consumed (lq s))) = 1%nat) as Hone.
  { rewrite Hopen. apply Permutation_length in Htotal.
    rewrite Hsplit, length_app in Htotal.
    destruct (segments !! i) as [sg|]; [rewrite length_segment_events in Htotal|];
      simpl in Htotal;
      destruct (length (events_of i (consumed (lq s)))) as [|[|[|n]]];
      simpl; split; first [done|lia]. }
  split; [done|]. split.
  - rewrite Hone. split.
    + intros Hc. destruct (events_of i (consumed (lq s))) as [|a [|]] eqn:Hca;
        try done.
      destruct (segments !! i) as [sg|] eqn:Hsg.
      2:{ rewrite Hsplit in Htotal. symmetry in Htotal.
          by apply Permutation_nil_cons in Htotal. }
      pose proof (Permutation_length Htotal) as Hlen.
      rewrite Hsplit, length_app, length_segment_events in Hlen. simpl in Hlen.
      destruct (events_of i (pending (lq s))) as [|b [|]] eqn:Hpb; try done.
      assert (a ∈ consumed (lq s)) as Ha
        by (apply (events_of_elem i); rewrite Hca; by left).
      assert (b ∈ pending (lq s)) as Hb
        by (apply (events_of_elem i); rewrite Hpb; by left).
      destruct (first_event_is_lower sg i a b) as [Hlo Hhi].
      { by rewrite <- Htotal, Hsplit. }
      { by eapply StronglySorted_app_1_elem_of. }
      by exists sg, a, b.
    + intros (sg & a & b & _ & -> & _). done.
  - intros sg Hsg. rewrite Hsg in Htotal. split.
    + apply Permutation_length in Htotal. by rewrite length_segment_events in Htotal.
    + rewrite Hed, events_of_init_events, Nat.sub_0_r, Hsg.
      by rewrite decide_True by lia.
Qed.

End OpenSet.

(** ** Instances of the sort *)

Lemma Less_spec (a b : event) :
  Less a b = true ↔
  X (ev a) < X (ev b) ∨ (X (ev a) = X (ev b) ∧ Y (ev a) < Y (ev b)).
Proof.
  unfold Less, xyorder. destruct (ev a) as [ax ay], (ev b) as [bx by']. simpl.
  repeat match goal with
         | |- context [?x >? ?y] => destruct (Z.gtb_spec x y)
         | |- context [?x <? ?y] => destruct (Z.ltb_spec x y)
         end; simpl; split; intros; try done; try lia.
Qed.

Lemma not_after_spec (a b : event) :
  not_after a b ↔
  X (ev a) < X (ev b) ∨ (X (ev a) = X (ev b) ∧ Y (ev a) ≤ Y (ev b)).
Proof.
  unfold not_after. pose proof (Less_spec b a) as H.
  destruct (Less b a); split; intros; try done; lia.
Qed.

#[local] Instance not_after_trans : Transitive not_after.
Proof. intros a b c. rewrite !not_after_spec. lia. Qed.

Lemma Less_not_after (a b : event) : Less a b = true → not_after a b.
Proof. rewrite Less_spec, not_after_spec. lia. Qed.

Lemma not_after_tie (a b : event) : not_after a b → not_after b a → ev a = ev b.
Proof.
  rewrite !not_after_spec. destruct (ev a), (ev b). simpl. intros. f_equal; lia.
Qed.

Lemma insert_event_perm x l : insert_event x l ≡ₚ x :: l.
Proof.
  induction l as [|y l IH]; simpl; [done|].
  destruct (Less y x); [|done]. by rewrite IH, Permutation_swap.
Qed.

Lemma insert_event_sorted x l :
  StronglySorted not_after l → StronglySorted not_after (insert_event x l).
Proof.
  induction 1 as [|y l Hs IH Hy]; simpl; [repeat constructor|].
  destruct (Less y x) eqn:Hyx.
  - constructor; [done|]. rewrite insert_event_perm.
    constructor; [by apply Less_not_after|done].
  - constructor; [by constructor|].
    constructor; [done|].
    eapply Forall_impl; [exact Hy|]. intros z Hz. by trans y.
Qed.

Lemma stable_sort_perm l : stable_sort l ≡ₚ l.
Proof.
  induction l as [|x l IH]; simpl; [done|]. by rewrite insert_event_perm, IH.
Qed.

Lemma stable_sort_contract : sort_contract stable_sort.
Proof.
  intros l. split; [apply stable_sort_perm|].
  induction l as [|x l IH]; simpl; [constructor|]. by apply insert_event_sorted.
Qed.

Lemma insert_event_last_perm x l : insert_event_last x l ≡ₚ x :: l.
Proof.
  induction l as [|y l IH]; simpl; [done|].
  destruct (Less x y); [done|]. by rewrite IH, Permutation_swap.
Qed.

Lemma insert_event_last_sorted x l :
  StronglySorted not_after l → StronglySorted not_after (insert_event_last x l).
Proof.
  induction 1 as [|y l Hs IH Hy]; simpl; [repeat constructor|].
  destruct (Less x y) eqn:Hxy.
  - constructor; [by constructor|].
    constructor; [by apply Less_not_after|].
    eapply Forall_impl; [exact Hy|]. intros z Hz.
    trans y; [by apply Less_not_after|done].
  - constructor; [done|]. rewrite insert_event_last_perm. by constructor.
Qed.

Lemma reversing_sort_contract : sort_contract reversing_sort.
Proof.
  intros l. split.
  - induction l as [|x l IH]; simpl; [done|].
    by rewrite insert_event_last_perm, IH.
  - induction l as [|x l IH]; simpl; [constructor|].
    by apply insert_event_last_sorted.
Qed.

Lemma gap_pass_perm w l : gap_pass w l ≡ₚ w ++ l.
Proof.
  revert w. induction l as [|x l IH]; intros w; simpl; [by rewrite app_nil_r|].
  destruct w as [|h w]; [done|]. destruct (Less x h); rewrite IH; simpl.
  - rewrite <- app_assoc. simpl. rewrite <- !Permutation_middle.
    apply Permutation_swap.
  - f_equiv. by rewrite <- app_assoc.
Qed.

Lemma gap_sort_contract : sort_contract gap_sort.
Proof.
  intros l. unfold gap_sort. split.
  - by rewrite stable_sort_perm, gap_pass_perm, take_drop.
  - apply stable_sort_contract.
Qed.

(** Inserting two events of which one is strictly before the other gives
    the same list in either order of insertion. *)
Lemma insert_event_comm a b l :
  Less a b = true →
  insert_event a (insert_event b l) = insert_event b (insert_event a l).
Proof.
  intros Hab.
  assert (Less b a = false) as Hba.
  { apply Less_spec in Hab. pose proof (Less_spec b a). destruct (Less b a); [lia|done]. }
  induction l as [|y l IH]; simpl.
  { by rewrite Hab, Hba. }
  destruct (Less y b) eqn:Hyb, (Less y a) eqn:Hya; simpl;
    rewrite ?Hab, ?Hba, ?Hyb, ?Hya; simpl; rewrite ?Hyb, ?Hya; try done.
  - by rewrite IH.
  - exfalso. apply Less_spec in Hab, Hya. pose proof (Less_spec y b).
    destruct (Less y b); [done|lia].
Qed.

(** Where no two events tie, the contract leaves the sort no freedom. *)
Lemma tie_free_sort_unique sort1 sort2 l :
  sort_contract sort1 → sort_contract sort2 → tie_free l → sort1 l = sort2 l.
Proof.
  intros H1 H2 Hfree. destruct (H1 l) as [Hp1 Hs1], (H2 l) as [Hp2 Hs2].
  apply (StronglySorted_unique_strong not_after); [|done|done|by rewrite Hp1, Hp2].
  intros a b Ha Hb Hab Hba. apply Hfree.
  - by rewrite <- Hp1.
  - by rewrite <- Hp2.
  - by apply not_after_tie.
Qed.

(** ** The reported pairs in closed form *)

Section ClosedForm.
Variable Intersect : Line → Line → Pt * bool.
Variable range_order : nat → list nat → list nat.
Variable segments : list Line.

Local Abbreviation body := (loop_body Intersect range_order segments).
Local Abbreviation run := (drain Intersect range_order).

Lemma hits_cons e s l :
  hits segments e (s :: l)
  = if reportable segments e s
    then (Nat.min e s, Nat.max e s) :: hits segments e l
    else hits segments e l.
Proof.
  unfold hits. rewrite filter_cons.
  destruct (reportable segments e s); by rewrite ?decide_True, ?decide_False by done.
Qed.

(** One step of the inner loop, read off the code: the pair is skipped when
    [reportable] is [false] and handed to the callback otherwise. *)
Lemma test_open_cons {St : Type} (fn : @callback St) e s l st :
  test_open Intersect segments fn e (s :: l) st
  = if reportable segments e s then
      let '(st', go_on) :=
        fn st (Nat.min e s) (Nat.max e s)
          (λ _, fst (Intersect (segments !!! e) (segments !!! s))) in
      if go_on then test_open Intersect segments fn e l st' else (st', false)
    else test_open Intersect segments fn e l st.
Proof.
  unfold reportable. simpl.
  destruct ((e =? s)%nat || ((s + 1) `mod` length segments =? e)%nat
            || ((e + 1) `mod` length segments =? s)%nat); simpl; [done|].
  destruct (DoesIntersect (segments !!! e) (segments !!! s)); simpl; [|done].
  assert ((if (s <? e)%nat then (s, e) else (e, s)) = (Nat.min e s, Nat.max e s)) as ->.
  { destruct (Nat.ltb_spec s e); f_equal; lia. }
  destruct (fn st _ _ _) as [st' b]. by destruct b.
Qed.

Lemma test_open_collect e l st :
  test_open Intersect segments collect e l st = (st ++ hits segments e l, true).
Proof.
  revert st. induction l as [|s l IH]; intros st.
  { simpl. by rewrite app_nil_r. }
  rewrite test_open_cons, hits_cons.
  destruct (reportable segments e s); [|apply IH].
  unfold collect at 1. simpl. rewrite IH, <- app_assoc. done.
Qed.

Lemma test_open_found_one e l b :
  test_open Intersect segments found_one e l b
  = if decide (hits segments e l = []) then (b, true) else (false, false).
Proof.
  induction l as [|s l IH]; [done|].
  rewrite test_open_cons, hits_cons.
  destruct (reportable segments e s); [|apply IH].
  by unfold found_one at 1.
Qed.

(** The first pending event is the one [Next] hands out. *)
Lemma Next_pending (q : eventQueue) e evs :
  length (eq q) = length (edata q) → pending q = e :: evs →
  Next q = (Some e, mkQueue (edata q) (eq q) (S (ix q))) ∧
  pending (mkQueue (edata q) (eq q) (S (ix q))) = evs.
Proof.
  unfold pending, Next. intros Hlen Hp. simpl.
  assert (eq q !! ix q = Some e) as He.
  { pose proof (lookup_drop (eq q) (ix q) 0) as H.
    rewrite Hp, Nat.add_0_r in H. done. }
  pose proof (lookup_lt_Some _ _ _ He).
  rewrite decide_False by lia. rewrite He. split; [done|].
  rewrite (drop_S _ _ _ He) in Hp. by simplify_eq.
Qed.

Lemma Next_exhausted (q : eventQueue) :
  length (eq q) = length (edata q) → pending q = [] → Next q = (None, q).
Proof.
  unfold pending, Next. intros Hlen Hp.
  apply (f_equal length) in Hp. rewrite length_drop in Hp. simpl in Hp.
  by rewrite decide_True by lia.
Qed.

(** The event loop with the collecting callback adds [all_hits] to what has
    been collected. *)
Lemma drain_collect evs fuel (s : @loop_state (list (nat * nat))) :
  length (eq (lq s)) = length (edata (lq s)) →
  pending (lq s) = evs → (length evs < fuel)%nat →
  cbst (flow_state (run fuel segments collect s))
  = cbst s ++ all_hits range_order segments (ix (lq s)) evs (isegmap s).
Proof.
  revert fuel s. induction evs as [|e evs IH]; intros fuel s Hlen Hp Hfuel;
    (destruct fuel as [|fuel]; [simpl in Hfuel; lia|]); simpl; unfold loop_body.
  { rewrite (Next_exhausted _ Hlen Hp). simpl. by rewrite app_nil_r. }
  destruct (Next_pending _ _ _ Hlen Hp) as [-> Hp'].
  destruct (decide (edge e ∈ isegmap s)).
  - destruct (decide (size (isegmap s ∖ {[edge e]}) = 0)%nat).
    + rewrite IH; simpl; [done|done|done|simpl in Hfuel; lia].
    + simpl. rewrite test_open_collect.
      rewrite IH; simpl; [by rewrite app_assoc|done|done|simpl in Hfuel; lia].
  - rewrite IH; simpl; [done|done|done|simpl in Hfuel; lia].
Qed.

(** With the callback of [IsSimple], [found] stays [true] exactly when
    there is nothing to report. *)
Lemma drain_found_one evs fuel (s : @loop_state bool) :
  length (eq (lq s)) = length (edata (lq s)) →
  pending (lq s) = evs → (length evs < fuel)%nat → cbst s = true →
  cbst (flow_state (run fuel segments found_one s))
  = bool_decide (all_hits range_order segments (ix (lq s)) evs (isegmap s) = []).
Proof.
  revert fuel s. induction evs as [|e evs IH]; intros fuel s Hlen Hp Hfuel Hst;
    (destruct fuel as [|fuel]; [simpl in Hfuel; lia|]); simpl; unfold loop_body.
  { by rewrite (Next_exhausted _ Hlen Hp). }
  destruct (Next_pending _ _ _ Hlen Hp) as [-> Hp'].
  destruct (decide (edge e ∈ isegmap s)).
  - destruct (decide (size (isegmap s ∖ {[edge e]}) = 0)%nat).
    + rewrite IH; simpl; [done|done|done|simpl in Hfuel; lia|done].
    + simpl. rewrite test_open_found_one.
      destruct (decide (hits segments (edge e) _ = [])) as [Hh|Hh].
      * rewrite IH; simpl; [by rewrite Hh|done|done|simpl in Hfuel; lia|done].
      * simpl. symmetry. apply bool_decide_eq_false. intros Hnil.
        apply app_eq_nil in Hnil as [? _]. done.
  - rewrite IH; simpl; [done|done|done|simpl in Hfuel; lia|done].
Qed.

End ClosedForm.

Lemma reported_closed_form sort Intersect range_order segments :
  sort_contract sort → (3 ≤ length segments)%nat →
  reported sort Intersect range_order segments
  = all_hits range_order segments 0 (sort (init_events 0 segments)) ∅.
Proof.
  intros Hsort Hn. unfold reported, FindIntersects.
  destruct (Nat.ltb_spec (length segments) 3); [lia|]. unfold scan.
  destruct (Hsort (init_events 0 segments)) as [Hperm _].
  apply Permutation_length in Hperm.
  rewrite (drain_collect _ _ _ (sort (init_events 0 segments))); simpl; try done.
  rewrite Hperm, length_init_events. lia.
Qed.

Lemma IsSimple_closed_form sort Intersect range_order segments :
  sort_contract sort → (3 ≤ length segments)%nat →
  IsSimple sort Intersect range_order segments
  = bool_decide
      (all_hits range_order segments 0 (sort (init_events 0 segments)) ∅ = []).
Proof.
  intros Hsort Hn. unfold IsSimple, FindIntersects.
  destruct (Nat.ltb_spec (length segments) 3); [lia|]. unfold scan.
  destruct (Hsort (init_events 0 segments)) as [Hperm _].
  apply Permutation_length in Hperm.
  rewrite (drain_found_one _ _ _ (sort (init_events 0 segments))); simpl; try done.
  rewrite Hperm, length_init_events. lia.
Qed.

(** [IsSimple] is [true] exactly when [FindIntersects] has nothing to
    report. *)
Lemma IsSimple_reported sort Intersect range_order segments :
  sort_contract sort →
  IsSimple sort Intersect range_order segments
  = bool_decide (reported sort Intersect range_order segments = []).
Proof.
  intros Hsort. destruct (Nat.lt_ge_cases (length segments) 3) as [Hn|Hn].
  - unfold IsSimple, reported, FindIntersects.
    by destruct (Nat.ltb_spec (length segments) 3); [|lia].
  - by rewrite IsSimple_closed_form, reported_closed_form.
Qed.

(** *** The order of the iteration over the open set *)

Lemma hits_perm segments e l1 l2 :
  l1 ≡ₚ l2 → hits segments e l1 ≡ₚ hits segments e l2.
Proof. intros H. unfold hits. by rewrite H. Qed.

Lemma all_hits_range_perm ro1 ro2 segments k evs open :
  range_contract ro1 → range_contract ro2 →
  all_hits ro1 segments k evs open ≡ₚ all_hits ro2 segments k evs open.
Proof.
  intros H1 H2. revert k open.
  induction evs as [|e evs IH]; intros k open; simpl; [done|].
  destruct (decide (edge e ∈ open)); [|apply IH].
  apply Permutation_app; [|apply IH].
  destruct (decide (size (open ∖ {[edge e]}) = 0)%nat); [done|].
  apply hits_perm. by rewrite (H1 _ _), (H2 _ _).
Qed.

(** *** Exchanging the endpoints of one segment *)

Lemma LeftRightMostAsLine_reverse (l : Line) :
  LeftRightMostAsLine (reverse_line l) = LeftRightMostAsLine l.
Proof.
  unfold LeftRightMostAsLine, reverse_line, xy_before. simpl.
  destruct l as [[x0 y0] [x1 y1]]. simpl.
  repeat match goal with
         | |- context [?x <? ?y] => destruct (Z.ltb_spec x y)
         | |- context [?x =? ?y] => destruct (Z.eqb_spec x y)
         end; simpl; try done; try lia.
  all: repeat f_equal; lia.
Qed.

Lemma DoesIntersect_reverse_l (a b : Line) :
  DoesIntersect (reverse_line a) b = DoesIntersect a b.
Proof. unfold DoesIntersect. by rewrite LeftRightMostAsLine_reverse. Qed.

Lemma DoesIntersect_reverse_r (a b : Line) :
  DoesIntersect a (reverse_line b) = DoesIntersect a b.
Proof. unfold DoesIntersect. by rewrite LeftRightMostAsLine_reverse. Qed.

Lemma reverse_at_lookup_total i segments j :
  reverse_at i segments !!! j = segments !!! j ∨
  reverse_at i segments !!! j = reverse_line (segments !!! j).
Proof.
  unfold reverse_at. rewrite list_lookup_total_alter.
  case_decide as H; [|by left]. destruct H as [-> _]. by right.
Qed.

Lemma reportable_reverse_at i segments e s :
  reportable (reverse_at i segments) e s = reportable segments e s.
Proof.
  unfold reportable. unfold reverse_at at 1 2. rewrite length_alter.
  f_equal.
  destruct (reverse_at_lookup_total i segments e) as [-> | ->],
    (reverse_at_lookup_total i segments s) as [-> | ->];
    by rewrite ?DoesIntersect_reverse_l, ?DoesIntersect_reverse_r.
Qed.

Lemma hits_reverse_at i segments e l :
  hits (reverse_at i segments) e l = hits segments e l.
Proof.
  unfold hits. f_equal. apply list_filter_iff. intros s.
  by rewrite reportable_reverse_at.
Qed.

Lemma all_hits_reverse_at ro i segments k evs open :
  all_hits ro (reverse_at i segments) k evs open = all_hits ro segments k evs open.
Proof.
  revert k open. induction evs as [|e evs IH]; intros k open; simpl; [done|].
  by rewrite !IH, hits_reverse_at.
Qed.

Lemma segment_events_reverse j sg :
  segment_events j (reverse_line sg) ≡ₚ segment_events j sg.
Proof.
  unfold segment_events, reverse_line. simpl.
  destruct (xyorder_cases (l_0 sg) (l_1 sg)) as [[H1 H2]|[[H1 H2]|[H1 H2]]].
  - rewrite H1, H2. simpl. apply Permutation_swap.
  - rewrite H1, H2. simpl. apply Permutation_swap.
  - rewrite <- H2 in *. by rewrite H1.
Qed.

(** The same events are written for the array with one segment reversed. *)
Lemma init_events_reverse_at i j segments :
  init_events j (reverse_at i segments) ≡ₚ init_events j segments.
Proof.
  unfold reverse_at. revert i j.
  induction segments as [|sg rest IH]; intros i j; [done|].
  destruct i as [|i]; simpl.
  - by rewrite segment_events_reverse.
  - by rewrite (IH i (S j)).
Qed.

(** A stable sort puts them in the same order. *)
Lemma stable_sort_reverse_at i j segments :
  stable_sort (init_events j (reverse_at i segments))
  = stable_sort (init_events j segments).
Proof.
  unfold reverse_at. revert i j.
  induction segments as [|sg rest IH]; intros i j; [done|].
  destruct i as [|i]; simpl.
  - unfold stable_sort. rewrite !foldr_app.
    fold (stable_sort (init_events (S j) rest)).
    unfold segment_events, reverse_line. simpl.
    destruct (xyorder_cases (l_0 sg) (l_1 sg)) as [[H1 H2]|[[H1 H2]|[H1 H2]]].
    + rewrite H1, H2. simpl. symmetry. apply insert_event_comm.
      unfold Less. simpl. by rewrite H1.
    + rewrite H1, H2. simpl. apply insert_event_comm.
      unfold Less. simpl. by rewrite H2.
    + rewrite <- H2 in *. by rewrite H1.
  - unfold stable_sort in *. rewrite !foldr_app. f_equal. apply (IH i (S j)).
Qed.

(** ** [Complement] on the sorted queue *)

Lemma tie_free_NoDup (l : list event) : NoDup (ev <$> l) → tie_free l.
Proof.
  induction l as [|x l IH]; intros Hnd a b Ha Hb Hev.
  { by apply elem_of_nil in Ha. }
  rewrite fmap_cons in Hnd. apply NoDup_cons in Hnd as [Hx Hnd].
  apply elem_of_cons in Ha as [->|Ha], Hb as [->|Hb]; auto.
  - exfalso. apply Hx. rewrite Hev. by apply list_elem_of_fmap_2.
  - exfalso. apply Hx. rewrite <- Hev. by apply list_elem_of_fmap_2.
  - by apply IH.
Qed.

Lemma nested_tie_free : tie_free (init_events 0 nested).
Proof. apply tie_free_NoDup. apply (bool_decide_unpack _). by vm_compute. Qed.

(** C6, on the array [nested]. Whatever the sort, [Complement] of the LEFT
    event of segment 0, which is in the queue, is the LEFT event of
    segment 1 and not the RIGHT event of segment 0: the index [2*edge+1] is
    taken in the sorted slice, where the events no longer stand in the
    places in which they were written. *)
Theorem Complement_after_sort sort :
  sort_contract sort →
  let q := NewEventQueue sort nested in
  let e := mkEvent 0 LEFT (mkPt 0 0) in
  e ∈ eq q ∧
  Complement q e = Some (mkEvent 1 LEFT (mkPt 1 1)) ∧
  edata q !! 1%nat = Some (mkEvent 0 RIGHT (mkPt 3 0)).
Proof.
  intros Hs q e. subst q e. unfold NewEventQueue. cbv zeta.
  rewrite (tie_free_sort_unique sort stable_sort _ Hs stable_sort_contract
             nested_tie_free).
  split; [|done]. vm_compute. by left.
Qed.

(** ** Concrete runs *)

Lemma in_order_contract : range_contract in_order.
Proof. by intros k l. Qed.

(** C9, as stated, fails on [touching]: segment 0 ends where segment 2
    begins, and the two sorts order these two events differently.  With the
    stable sort segment 0 is closed before segment 2 is opened and nothing is
    reported; with the other one segment 2 is open when segment 0 is closed
    and the pair (0, 2) is reported. *)
Lemma tie_order_changes_reported :
  sort_contract stable_sort ∧ sort_contract reversing_sort ∧
  range_contract in_order ∧
  ((0%nat, 2%nat) ∉ reported stable_sort no_solver in_order touching) ∧
  ((0%nat, 2%nat) ∈ reported reversing_sort no_solver in_order touching).
Proof.
  split; [apply stable_sort_contract|]. split; [apply reversing_sort_contract|].
  split; [apply in_order_contract|]. split.
  - assert (reported stable_sort no_solver in_order touching = []) as ->
      by (by vm_compute).
    apply not_elem_of_nil.
  - assert (reported reversing_sort no_solver in_order touching = [(0%nat, 2%nat)])
      as -> by (by vm_compute).
    by left.
Qed.

(** C8, as stated, fails on [meeting] under the sort [gap_sort]: segment 1
    ends where segment 3 begins; with segment 0 as given the event of
    segment 1 comes first and nothing is reported, with segment 0 reversed
    the sort exchanges two events in its first pass, the event of segment 3
    comes first, and the pair (1, 3) is reported. *)
Lemma reversal_changes_result :
  sort_contract gap_sort ∧ range_contract in_order ∧
  IsSimple gap_sort no_solver in_order meeting = true ∧
  IsSimple gap_sort no_solver in_order (reverse_at 0 meeting) = false ∧
  reported gap_sort no_solver in_order meeting = [] ∧
  reported gap_sort no_solver in_order (reverse_at 0 meeting) = [(1%nat, 3%nat)].
Proof.
  split; [apply gap_sort_contract|]. split; [apply in_order_contract|].
  repeat split; by vm_compute.
Qed.

Lemma Complement_after_sort_witness :
  let q := NewEventQueue stable_sort nested in
  let e := mkEvent 0 LEFT (mkPt 0 0) in
  e ∈ eq q ∧
  Complement q e = Some (mkEvent 1 LEFT (mkPt 1 1)) ∧
  edata q !! 1%nat = Some (mkEvent 0 RIGHT (mkPt 3 0)).
Proof. apply (Complement_after_sort stable_sort). apply stable_sort_contract. Defined.

(** The two rings of section 8 of the specification: the unit square is
    simple and nothing is reported on it; on the bowtie the first and the
    third edge cross, the one pair (0, 2) is reported, and a callback that
    stops at once is invoked once. *)
Example unit_square_simple :
  IsSimple stable_sort no_solver in_order unit_square = true ∧
  reported stable_sort no_solver in_order unit_square = [].
Proof. by vm_compute. Qed.

Example bowtie_not_simple :
  IsSimple stable_sort no_solver in_order bowtie = false ∧
  reported stable_sort no_solver in_order bowtie = [(0%nat, 2%nat)] ∧
  FindIntersects stable_sort no_solver in_order bowtie stop_at_once 0%nat = 1%nat.
Proof. by vm_compute. Qed.

Lemma FindIntersects_early_abort_witness :
  calls_of stable_sort no_solver in_order bowtie stop_at_once 0%nat
  = [] ++ mkCall 0 2 false :: [] ∧
  (@nil call) = [] ∧
  ∃ k sk,
    let final :=
      scan stable_sort no_solver in_order bowtie (logged stop_at_once) (0%nat, []) in
    drain no_solver in_order k bowtie (logged stop_at_once)
      (loop_init stable_sort bowtie (0%nat, [])) = Running sk ∧
    ix (lq sk) = k ∧
    snd (cbst sk) `prefix_of` [] ∧
    loop_body no_solver in_order bowtie (logged stop_at_once) sk = Returned final ∧
    ix (lq final) = S k ∧
    snd (cbst final) = [] ++ [mkCall 0 2 false].
Proof.
  split; [by vm_compute|].
  apply (FindIntersects_early_abort stable_sort no_solver in_order bowtie
           stop_at_once 0%nat [] (mkCall 0 2 false) []).
  - by vm_compute.
  - done.
Defined.

Lemma FindIntersects_short_input_witness :
  calls_of stable_sort no_solver in_order nested stop_at_once 0%nat = [] ∧
  FindIntersects stable_sort no_solver in_order nested stop_at_once 0%nat = 0%nat ∧
  IsSimple stable_sort no_solver in_order nested = true.
Proof.
  apply (FindIntersects_short_input stable_sort no_solver in_order nested
           stop_at_once 0%nat).
  simpl. lia.
Defined.

Lemma open_set_invariant_witness :
  let s := flow_state
             (drain no_solver in_order 3 bowtie stop_at_once
                (loop_init stable_sort bowtie 0%nat)) in
  (0%nat ∈ isegmap s ↔ length (events_of 0 (consumed (lq s))) = 1%nat) ∧
  (0%nat ∈ isegmap s ↔
     ∃ sg a b,
       bowtie !! 0%nat = Some sg ∧
       events_of 0 (consumed (lq s)) = [a] ∧
       events_of 0 (pending (lq s)) = [b] ∧
       ev a = lo_pt sg ∧ ev b = hi_pt sg) ∧
  (∀ sg, bowtie !! 0%nat = Some sg →
         length (events_of 0 (eq (lq s))) = 2%nat ∧
         events_of 0 (edata (lq s)) = segment_events 0 sg).
Proof.
  apply (open_set_invariant stable_sort no_solver in_order bowtie stop_at_once
           stable_sort_contract 3 0%nat 0%nat).
Defined.

(** * Further properties of package [validate] *)

(** ** The two orders on points *)

(** X1. [xyorder] compares as a total order: its value is -1, 0 or 1,
    exchanging the arguments negates it, it is 0 exactly on equal points, and
    "not after" is transitive. *)
Theorem xyorder_total_order (p q r : Pt) :
  (xyorder p q = -1 ∨ xyorder p q = 0 ∨ xyorder p q = 1) ∧
  xyorder q p = - xyorder p q ∧
  (xyorder p q = 0 ↔ p = q) ∧
  (xyorder p q ≤ 0 → xyorder q r ≤ 0 → xyorder p r ≤ 0) ∧
  (xyorder p q = -1 ↔ X p < X q ∨ (X p = X q ∧ Y p < Y q)).
Proof.
  destruct p as [px py], q as [qx qy], r as [rx ry]. unfold xyorder. simpl.
  repeat match goal with
         | |- context [?a >? ?b] => destruct (Z.gtb_spec a b)
         | |- context [?a <? ?b] => destruct (Z.ltb_spec a b)
         end; repeat split; intros; simplify_eq; try lia; auto;
    try (f_equal; lia).
Qed.

(** X2. [yxorder] is the same comparison with the roles of the two
    coordinates exchanged: the ordinate decides first.  It is 0 exactly on
    equal points and exchanging the arguments negates it. *)
Theorem yxorder_total_order (p q : Pt) :
  yxorder p q = xyorder (mkPt (Y p) (X p)) (mkPt (Y q) (X q)) ∧
  yxorder q p = - yxorder p q ∧
  (yxorder p q = 0 ↔ p = q) ∧
  (yxorder p q = -1 ↔ Y p < Y q ∨ (Y p = Y q ∧ X p < X q)).
Proof.
  destruct p as [px py], q as [qx qy]. unfold yxorder, xyorder. simpl.
  repeat match goal with
         | |- context [?a >? ?b] => destruct (Z.gtb_spec a b)
         | |- context [?a <? ?b] => destruct (Z.ltb_spec a b)
         end; repeat split; intros; simplify_eq; try lia; auto;
    try (f_equal; lia).
Qed.

(** ** The straddle test *)

(** X3. [DoesIntersect] does not depend on the order of its two
    arguments. *)
Theorem DoesIntersect_sym (s1 s2 : Line) :
  DoesIntersect s1 s2 = DoesIntersect s2 s1.
Proof.
  unfold DoesIntersect.
  destruct (_ * _ >? 0); destruct (_ * _ >? 0); done.
Qed.

(** ** The event queue *)

Lemma init_events_edge_bounds j segs (e : event) :
  e ∈ init_events j segs → (j ≤ edge e < j + length segs)%nat.
Proof.
  revert j. induction segs as [|sg rest IH]; intros j; simpl.
  { intros H. by apply elem_of_nil in H. }
  rewrite elem_of_app. intros [H|H].
  - unfold segment_events in H. destruct (_ <? 0);
      repeat (apply elem_of_cons in H as [->|H]); simpl; try lia;
      by apply elem_of_nil in H.
  - apply IH in H. lia.
Qed.

Lemma init_events_lookup j segs i sg :
  segs !! i = Some sg →
  init_events j segs !! (2 * i)%nat = segment_events (j + i) sg !! 0%nat ∧
  init_events j segs !! (2 * i + 1)%nat = segment_events (j + i) sg !! 1%nat.
Proof.
  revert j i. induction segs as [|sg0 rest IH]; intros j i Hi; [done|].
  destruct i as [|i]; simpl in *.
  - simplify_eq. rewrite Nat.add_0_r.
    unfold segment_events. by destruct (_ <? 0).
  - destruct (IH (S j) i Hi) as [H0 H1].
    replace (j + S i)%nat with (S j + i)%nat by lia.
    rewrite <- H0, <- H1.
    split; rewrite lookup_app_r; rewrite length_segment_events; try lia;
      f_equal; lia.
Qed.

Lemma segment_events_lo_hi i sg :
  segment_events i sg ≡ₚ [mkEvent i LEFT (lo_pt sg); mkEvent i RIGHT (hi_pt sg)].
Proof.
  unfold segment_events, lo_pt, hi_pt.
  destruct (xyorder_cases (l_0 sg) (l_1 sg)) as [[H1 H2]|[[H1 H2]|[H1 H2]]];
    rewrite H1; simpl; [done|apply Permutation_swap|].
  rewrite H2. apply Permutation_swap.
Qed.

(** X4. The queue [NewEventQueue] builds, for any sort that returns a sorted
    permutation: the cursor is at 0, both slices hold [2n] events, the
    sorted slice holds the events of the construction slice, slots [2i] and
    [2i+1] of the latter are at the two endpoints of segment [i] as given,
    every event names a segment of the array, and each segment has exactly
    two events, one LEFT at its endpoint that is first in the (x, y) order
    and one RIGHT at the other. *)
Theorem NewEventQueue_structure sort segments :
  sort_contract sort →
  let q := NewEventQueue sort segments in
  let n := length segments in
  ix q = 0%nat ∧ length (edata q) = (2 * n)%nat ∧ length (eq q) = (2 * n)%nat ∧
  eq q ≡ₚ edata q ∧
  (∀ e, e ∈ eq q → (edge e < n)%nat) ∧
  (∀ i sg, segments !! i = Some sg →
     ev <$> edata q !! (2 * i)%nat = Some (l_0 sg) ∧
     ev <$> edata q !! (2 * i + 1)%nat = Some (l_1 sg) ∧
     events_of i (eq q)
     ≡ₚ [mkEvent i LEFT (lo_pt sg); mkEvent i RIGHT (hi_pt sg)]).
Proof.
  intros Hsort q n. subst q n. unfold NewEventQueue. cbv zeta. cbn [edata eq ix].
  destruct (Hsort (init_events 0 segments)) as [Hperm _].
  split; [done|]. split; [apply length_init_events|].
  split; [by rewrite Hperm, length_init_events|]. split; [done|]. split.
  - intros e He. rewrite Hperm in He. apply init_events_edge_bounds in He. lia.
  - intros i sg Hi. destruct (init_events_lookup 0 segments i sg Hi) as [H0 H1].
    rewrite H0, H1. split; [|split].
    + unfold segment_events. by destruct (_ <? 0).
    + unfold segment_events. by destruct (_ <? 0).
    + unfold events_of. rewrite Hperm. fold (events_of i (init_events 0 segments)).
      rewrite events_of_init_events, Nat.sub_0_r, Hi.
      rewrite decide_True by lia. apply segment_events_lo_hi.
Qed.

Lemma next_n_pending k (q : eventQueue) :
  length (eq q) = length (edata q) →
  next_n (length (pending q) + k) q = (Some <$> pending q) ++ replicate k None.
Proof.
  remember (pending q) as evs eqn:Hp. symmetry in Hp. revert q Hp.
  induction evs as [|e evs IH]; intros q Hp Hlen; simpl.
  - induction k as [|k IHk]; [done|]. simpl.
    rewrite (Next_exhausted q Hlen Hp). by rewrite IHk.
  - destruct (Next_pending q e evs Hlen Hp) as [-> Hp']. f_equal.
    by apply IH.
Qed.

(** X5. Successive calls of [Next] on a new queue return the [2n] events
    of the sorted slice, each once and in order, and [nil] from then on. *)
Theorem Next_enumerates sort segments k :
  sort_contract sort →
  next_n (2 * length segments + k) (NewEventQueue sort segments)
  = (Some <$> sort (init_events 0 segments)) ++ replicate k None.
Proof.
  intros Hsort. destruct (Hsort (init_events 0 segments)) as [Hperm _].
  apply Permutation_length in Hperm. rewrite length_init_events in Hperm.
  rewrite <- Hperm.
  apply (next_n_pending k (NewEventQueue sort segments)).
  simpl. by rewrite Hperm, length_init_events.
Qed.

(** X6. On an event of a new queue [Complement] never indexes out of
    range: it returns an event of the queue. *)
Theorem Complement_in_range sort segments e :
  sort_contract sort →
  e ∈ eq (NewEventQueue sort segments) →
  ∃ e', Complement (NewEventQueue sort segments) e = Some e' ∧
        e' ∈ eq (NewEventQueue sort segments).
Proof.
  intros Hsort He. simpl in He.
  destruct (Hsort (init_events 0 segments)) as [Hperm _].
  pose proof (Permutation_length Hperm) as Hlen.
  rewrite length_init_events in Hlen.
  rewrite Hperm in He. apply init_events_edge_bounds in He.
  unfold Complement. simpl.
  destruct (decide (edgeType e = LEFT)).
  - destruct (lookup_lt_is_Some_2 (sort (init_events 0 segments))
                (edge e * 2 + 1)) as [e' He']; [lia|].
    exists e'. split; [done|]. by eapply list_elem_of_lookup_2.
  - destruct (lookup_lt_is_Some_2 (sort (init_events 0 segments))
                (edge e * 2)) as [e' He']; [lia|].
    exists e'. split; [done|]. by eapply list_elem_of_lookup_2.
Qed.

(** ** Which pairs are reported *)

Lemma opened_cons e evs open : opened (e :: evs) open = opened evs (toggle open e).
Proof. done. Qed.

Lemma opened_app evs1 evs2 open :
  opened (evs1 ++ evs2) open = opened evs2 (opened evs1 open).
Proof. unfold opened. by rewrite foldl_app. Qed.

Lemma elem_of_toggle i open e :
  i ∈ toggle open e ↔ (if decide (edge e = i) then i ∉ open else i ∈ open).
Proof.
  unfold toggle. destruct (decide (edge e = i)) as [<-|Hne];
    destruct (decide (edge e ∈ open)); set_solver.
Qed.

(** A segment is open after some events exactly when an odd number of them
    are its own, the set being empty at the start. *)
Lemma opened_parity evs open i :
  i ∈ opened evs open ↔
  (if Nat.odd (length (events_of i evs)) then i ∉ open else i ∈ open).
Proof.
  revert open. induction evs as [|e evs IH]; intros open; [done|].
  rewrite opened_cons, IH. unfold events_of. rewrite filter_cons.
  fold (events_of i evs).
  destruct (decide (edge e = i)) as [Heq|Hne]; simpl.
  - rewrite Nat.odd_succ, <- Nat.negb_odd.
    destruct (Nat.odd (length (events_of i evs))); simpl;
      rewrite elem_of_toggle, decide_True by done; [|done].
    split; [|tauto]. intros H. by destruct (decide (i ∈ open)).
  - destruct (Nat.odd (length (events_of i evs)));
      by rewrite elem_of_toggle, decide_False by done.
Qed.

Lemma hits_elem segments e l p :
  p ∈ hits segments e l ↔
  ∃ s, s ∈ l ∧ reportable segments e s = true ∧ p = (Nat.min e s, Nat.max e s).
Proof.
  unfold hits. rewrite list_elem_of_fmap. split.
  - intros (s & -> & Hs). apply list_elem_of_filter in Hs as [? ?]. eauto.
  - intros (s & ? & ? & ->). exists s. split; [done|].
    by apply list_elem_of_filter.
Qed.

Lemma reportable_ne segments e s : reportable segments e s = true → e ≠ s.
Proof.
  unfold reportable. intros H ->. rewrite Nat.eqb_refl in H. done.
Qed.

(** The closed form read as a set: a pair is in it exactly when some event
    [ev] of the list closes its segment while the other segment of the pair
    is open, and the two pass the tests of the inner loop. *)
Lemma all_hits_elem ro segments k evs open p :
  range_contract ro →
  p ∈ all_hits ro segments k evs open ↔
  ∃ pre ev post s,
    evs = pre ++ ev :: post ∧
    edge ev ∈ opened pre open ∧ s ∈ opened pre open ∧
    reportable segments (edge ev) s = true ∧
    p = (Nat.min (edge ev) s, Nat.max (edge ev) s).
Proof.
  intros Hro. revert k open. induction evs as [|e evs IH]; intros k open.
  { simpl. split; [by intros ?%elem_of_nil|].
    intros (pre & ev & post & s & H & _). by destruct pre. }
  assert (p ∈ all_hits ro segments (S k) evs (toggle open e) ↔
          ∃ pre ev post s,
            e :: evs = (e :: pre) ++ ev :: post ∧
            edge ev ∈ opened (e :: pre) open ∧ s ∈ opened (e :: pre) open ∧
            reportable segments (edge ev) s = true ∧
            p = (Nat.min (edge ev) s, Nat.max (edge ev) s)) as Hlater.
  { rewrite IH. split; intros (pre & ev & post & s & H & Hrest);
      exists pre, ev, post, s; (split; [|done]); simpl in *; by simplify_eq. }
  assert (edge e ∈ open →
          p ∈ (if decide (size (open ∖ {[edge e]}) = 0)%nat then []
               else hits segments (edge e)
                      (ro (S k) (elements (open ∖ {[edge e]})))) ↔
          ∃ s, s ∈ open ∧ reportable segments (edge e) s = true ∧
               p = (Nat.min (edge e) s, Nat.max (edge e) s)) as Hnow.
  { intros He. destruct (decide (size (open ∖ {[edge e]}) = 0)%nat) as [Hz|Hz].
    - apply size_empty_inv in Hz. split; [by intros ?%elem_of_nil|].
      intros (s & Hs & Hr & _). apply reportable_ne in Hr. set_solver.
    - rewrite hits_elem. split.
      + intros (s & Hs & Hr & ->). rewrite (Hro _ _) in Hs.
        apply elem_of_elements in Hs. exists s. split; [set_solver|done].
      + intros (s & Hs & Hr & ->). exists s. split; [|done].
        rewrite (Hro _ _). apply elem_of_elements.
        apply reportable_ne in Hr. set_solver. }
  simpl. fold (toggle open e).
  destruct (decide (edge e ∈ open)) as [He|He].
  - assert (open ∖ {[edge e]} = toggle open e) as Ht
      by (unfold toggle; by rewrite decide_True).
    rewrite elem_of_app, (Hnow He), Ht, Hlater. split.
    + intros [(s & Hs & Hr & ->)|(pre & ev & post & s & H)].
      * by exists [], e, evs, s.
      * exists (e :: pre), ev, post, s. done.
    + intros (pre & ev & post & s & H & H1 & H2 & H3 & H4).
      destruct pre as [|e0 pre]; simpl in H; simplify_eq.
      * left. eauto.
      * right. exists pre, ev, post, s. done.
  - assert ({[edge e]} ∪ open = toggle open e) as Ht
      by (unfold toggle; by rewrite decide_False).
    rewrite Ht, Hlater. split.
    + intros (pre & ev & post & s & H). exists (e :: pre), ev, post, s. done.
    + intros (pre & ev & post & s & H & H1 & H2 & H3 & H4).
      destruct pre as [|e0 pre]; simpl in H; simplify_eq.
      * done.
      * exists pre, ev, post, s. done.
Qed.

Lemma events_of_sorted_length sort segments i :
  sort_contract sort →
  length (events_of i (sort (init_events 0 segments)))
  = if decide (i < length segments)%nat then 2%nat else 0%nat.
Proof.
  intros Hsort. rewrite (events_of_sorted sort segments Hsort i).
  destruct (segments !! i) as [sg|] eqn:Hi.
  - rewrite length_segment_events. apply lookup_lt_Some in Hi.
    by rewrite decide_True.
  - apply lookup_ge_None in Hi. by rewrite decide_False by lia.
Qed.

(** In a prefix of the sorted events a segment is open exactly when one of
    its events is in the prefix, and then it is a segment of the array. *)
Lemma opened_sorted_prefix sort segments pre post i :
  sort_contract sort → sort (init_events 0 segments) = pre ++ post →
  (i ∈ opened pre ∅ ↔ length (events_of i pre) = 1%nat) ∧
  (i ∈ opened pre ∅ → (i < length segments)%nat).
Proof.
  intros Hsort Hsplit.
  pose proof (events_of_sorted_length sort segments i Hsort) as Hlen.
  rewrite Hsplit, events_of_app, length_app in Hlen.
  rewrite opened_parity.
  destruct (decide (i < length segments)%nat) as [Hi|Hi];
    destruct (length (events_of i pre)) as [|[|[|m]]]; simpl;
    split; try split; try done; try lia; set_solver.
Qed.

(** Two segments that pass the tests of the inner loop are two of at least
    four: in a ring of three, any two segments are neighbours. *)
Lemma reportable_four segments e s :
  reportable segments e s = true →
  (e < length segments)%nat → (s < length segments)%nat →
  (4 ≤ length segments)%nat.
Proof.
  unfold reportable. intros H He Hs. apply andb_prop in H as [H _].
  destruct (length segments) as [|[|[|[|n]]]]; [lia| | | |lia].
  - assert (e = 0 ∧ s = 0)%nat as [-> ->] by lia. done.
  - destruct e as [|[|e]], s as [|[|s]]; try lia; done.
  - destruct e as [|[|[|e]]], s as [|[|[|s]]]; try lia; done.
Qed.

(** X7. Which pairs [FindIntersects] hands to an always-continue callback:
    [(a, b)] is reported exactly when [a] and [b] are the smaller and the
    larger of two segments [e] and [s] such that, when the second event of
    [e] is taken from the queue, exactly one event of [s] has been taken
    (so [s] is open), and the two are not ring neighbours and pass
    [DoesIntersect]. *)
Theorem reported_characterisation sort Intersect range_order segments a b :
  sort_contract sort → range_contract range_order →
  (a, b) ∈ reported sort Intersect range_order segments ↔
  ∃ e s pre ev post,
    sort (init_events 0 segments) = pre ++ ev :: post ∧ edge ev = e ∧
    length (events_of e pre) = 1%nat ∧ length (events_of s pre) = 1%nat ∧
    reportable segments e s = true ∧
    a = Nat.min e s ∧ b = Nat.max e s.
Proof.
  intros Hsort Hro.
  destruct (Nat.lt_ge_cases (length segments) 3) as [Hn|Hn].
  - assert (reported sort Intersect range_order segments = []) as ->.
    { unfold reported, FindIntersects.
      by destruct (Nat.ltb_spec (length segments) 3); [|lia]. }
    split; [by intros ?%elem_of_nil|].
    intros (e & s & pre & ev & post & Hsplit & <- & He & Hs & Hr & _).
    destruct (opened_sorted_prefix sort segments pre (ev :: post) (edge ev)
                Hsort Hsplit) as [He1 He2].
    destruct (opened_sorted_prefix sort segments pre (ev :: post) s
                Hsort Hsplit) as [Hs1 Hs2].
    pose proof (reportable_four segments (edge ev) s Hr).
    rewrite <- He1 in He. rewrite <- Hs1 in Hs. specialize (He2 He).
    specialize (Hs2 Hs). lia.
  - rewrite reported_closed_form, all_hits_elem by done. split.
    + intros (pre & ev & post & s & Hsplit & He & Hs & Hr & Hp).
      destruct (opened_sorted_prefix sort segments pre (ev :: post) (edge ev)
                  Hsort Hsplit) as [He1 _].
      destruct (opened_sorted_prefix sort segments pre (ev :: post) s
                  Hsort Hsplit) as [Hs1 _].
      exists (edge ev), s, pre, ev, post. simplify_eq.
      repeat split; try done; [by apply He1|by apply Hs1].
    + intros (e & s & pre & ev & post & Hsplit & <- & He & Hs & Hr & -> & ->).
      destruct (opened_sorted_prefix sort segments pre (ev :: post) (edge ev)
                  Hsort Hsplit) as [He1 _].
      destruct (opened_sorted_prefix sort segments pre (ev :: post) s
                  Hsort Hsplit) as [Hs1 _].
      exists pre, ev, post, s. repeat split; try done; [by apply He1|by apply Hs1].
Qed.

(** ** Any callback sees a prefix of the reported pairs *)

Section Prefix.
Context {St : Type}.
Variable Intersect : Line → Line → Pt * bool.
Variable range_order : nat → list nat → list nat.
Variable segments : list Line.
Variable fn : @callback St.

Local Abbreviation run := (drain Intersect range_order).

Lemma test_open_logged_hits e l st log :
  let r := test_open Intersect segments (logged fn) e l (st, log) in
  ∃ new,
    snd (fst r) = log ++ new ∧
    if snd r
    then call_pair <$> new = hits segments e l ∧ Forall continued new
    else (∃ rest, hits segments e l = (call_pair <$> new) ++ rest) ∧
         ¬ Forall continued new.
Proof.
  revert st log. induction l as [|s l IH]; intros st log.
  { exists []. simpl. by rewrite app_nil_r. }
  rewrite test_open_cons, hits_cons.
  destruct (reportable segments e s); [|apply IH].
  set (ptfn := λ _ : unit, fst (Intersect (segments !!! e) (segments !!! s))).
  destruct (fn st (Nat.min e s) (Nat.max e s) ptfn) as [st' b] eqn:Hfn.
  set (c := mkCall (Nat.min e s) (Nat.max e s) b).
  assert (logged fn (st, log) (Nat.min e s) (Nat.max e s) ptfn
          = ((st', log ++ [c]), b)) as ->.
  { unfold logged. simpl. by rewrite Hfn. }
  destruct b.
  - destruct (IH st' (log ++ [c])) as (new & Hlog & Hnew).
    exists (c :: new). rewrite Hlog, <- app_assoc. split; [done|].
    destruct (snd (test_open _ _ _ _ _ _)).
    + destruct Hnew as [Hpairs ?]. rewrite fmap_cons, Hpairs.
      split; [done|]. by constructor.
    + destruct Hnew as [[rest Hrest] Hn]. rewrite fmap_cons, Hrest.
      split; [by exists rest|].
      intros Hall. apply Hn. by inversion Hall.
  - exists [c]. simpl. split; [done|]. split; [by eexists|].
    intros Hall. inversion Hall as [|? ? Hc _]. done.
Qed.

Lemma drain_logged_hits evs fuel (s : @loop_state (St * list call)) :
  length (eq (lq s)) = length (edata (lq s)) →
  pending (lq s) = evs → (length evs < fuel)%nat →
  ∃ new,
    snd (cbst (flow_state (run fuel segments (logged fn) s)))
    = snd (cbst s) ++ new ∧
    call_pair <$> new
    `prefix_of` all_hits range_order segments (ix (lq s)) evs (isegmap s) ∧
    (Forall continued new →
     call_pair <$> new
     = all_hits range_order segments (ix (lq s)) evs (isegmap s)).
Proof.
  revert fuel s. induction evs as [|e evs IH]; intros fuel s Hlen Hp Hfuel;
    (destruct fuel as [|fuel]; [simpl in Hfuel; lia|]); simpl; unfold loop_body.
  { rewrite (Next_exhausted _ Hlen Hp). exists []. simpl.
    by rewrite app_nil_r. }
  destruct (Next_pending _ _ _ Hlen Hp) as [-> Hp'].
  assert (length evs < fuel)%nat as Hfuel' by (simpl in Hfuel; lia).
  set (q' := mkQueue (edata (lq s)) (eq (lq s)) (S (ix (lq s)))) in *.
  destruct (decide (edge e ∈ isegmap s)).
  - destruct (decide (size (isegmap s ∖ {[edge e]}) = 0)%nat).
    + destruct (IH fuel (mkLoop q' (isegmap s ∖ {[edge e]}) (cbst s)))
        as (new & Hlog & Hpre & Hfull); [done|exact Hp'|done|].
      by exists new.
    + cbn [ix q']. destruct (cbst s) as [st log] eqn:Hst.
      destruct (test_open_logged_hits (edge e)
                  (range_order (S (ix (lq s))) (elements (isegmap s ∖ {[edge e]})))
                  st log) as (new1 & Hlog1 & Hnew1).
      destruct (test_open Intersect segments (logged fn) _ _ _) as [st' go_on].
      cbn [fst snd] in Hlog1, Hnew1. destruct go_on.
      * destruct Hnew1 as [Hpairs Hall1].
        destruct (IH fuel (mkLoop q' (isegmap s ∖ {[edge e]}) st'))
          as (new2 & Hlog2 & Hpre & Hfull); [done|exact Hp'|done|].
        cbn [lq isegmap cbst ix q'] in *.
        exists (new1 ++ new2). rewrite Hlog2, Hlog1, <- app_assoc.
        split; [done|]. rewrite fmap_app, Hpairs. split.
        -- by apply prefix_app.
        -- intros Hall. apply Forall_app in Hall as [_ Hall2].
           by rewrite (Hfull Hall2).
      * destruct Hnew1 as [[rest Hrest] Hnot]. cbn [flow_state cbst snd].
        exists new1. split; [done|]. rewrite Hrest. split.
        -- rewrite <- app_assoc. by apply prefix_app_r.
        -- intros Hall. done.
  - destruct (IH fuel (mkLoop q' ({[edge e]} ∪ isegmap s) (cbst s)))
      as (new & Hlog & Hpre & Hfull); [done|exact Hp'|done|].
    by exists new.
Qed.

End Prefix.

(** The calls of a run against the closed form. *)
Lemma calls_prefix_reported_closed {St : Type} sort Intersect range_order
    segments (fn : @callback St) st :
  sort_contract sort →
  calls_of sort Intersect range_order segments fn st = [] ∨
  call_pair <$> calls_of sort Intersect range_order segments fn st
  `prefix_of` all_hits range_order segments 0 (sort (init_events 0 segments)) ∅.
Proof.
  intros Hsort. unfold calls_of, FindIntersects.
  destruct (Nat.ltb_spec (length segments) 3); [by left|]. right. unfold scan.
  destruct (Hsort (init_events 0 segments)) as [Hperm _].
  apply Permutation_length in Hperm. rewrite length_init_events in Hperm.
  destruct (drain_logged_hits Intersect range_order segments fn
              (sort (init_events 0 segments)) (S (2 * length segments))
              (loop_init sort segments (st, [])))
    as (new & Hlog & Hpre & _); simpl; try done.
  - by rewrite Hperm, length_init_events.
  - lia.
  - simpl in Hlog. by rewrite Hlog.
Qed.

(** X8. Whatever the callback does, the pairs it is invoked on, in order,
    are a prefix of the pairs reported to an always-continue callback (same
    sort, same order of iteration over the open set); they are all of them
    when every invocation returned [true].  Stopping only cuts the sequence
    short. *)
Theorem calls_prefix_of_reported {St : Type} sort Intersect Intersect'
    range_order segments (fn : @callback St) st :
  sort_contract sort →
  call_pair <$> calls_of sort Intersect range_order segments fn st
  `prefix_of` reported sort Intersect' range_order segments ∧
  (Forall continued (calls_of sort Intersect range_order segments fn st) →
   call_pair <$> calls_of sort Intersect range_order segments fn st
   = reported sort Intersect' range_order segments).
Proof.
  intros Hsort.
  destruct (Nat.lt_ge_cases (length segments) 3) as [Hn|Hn].
  { unfold calls_of, reported, FindIntersects.
    by destruct (Nat.ltb_spec (length segments) 3); [|lia]. }
  rewrite reported_closed_form by done.
  unfold calls_of, FindIntersects.
  destruct (Nat.ltb_spec (length segments) 3); [lia|]. unfold scan.
  destruct (Hsort (init_events 0 segments)) as [Hperm _].
  apply Permutation_length in Hperm. rewrite length_init_events in Hperm.
  destruct (drain_logged_hits Intersect range_order segments fn
              (sort (init_events 0 segments)) (S (2 * length segments))
              (loop_init sort segments (st, [])))
    as (new & Hlog & Hpre & Hfull); simpl; try done.
  - by rewrite Hperm, length_init_events.
  - lia.
  - simpl in Hlog. rewrite Hlog. done.
Qed.

(** ** No pair twice, no index out of range *)

Lemma events_of_cons i e l :
  events_of i (e :: l)
  = if decide (edge e = i) then e :: events_of i l else events_of i l.
Proof. unfold events_of. by rewrite filter_cons. Qed.

(** The segments of a pair in the closed form are open at the start or
    have an event among the events to come. *)
Lemma all_hits_active ro segments k evs open a b :
  range_contract ro → (a, b) ∈ all_hits ro segments k evs open →
  (a ∈ open ∨ 1 ≤ length (events_of a evs))%nat ∧
  (b ∈ open ∨ 1 ≤ length (events_of b evs))%nat.
Proof.
  intros Hro Hin. apply all_hits_elem in Hin; [|done].
  destruct Hin as (pre & ev & post & s & -> & He & Hs & Hr & Hp).
  assert (∀ i, i ∈ opened pre open →
               i ∈ open ∨ (1 ≤ length (events_of i (pre ++ ev :: post)))%nat)
    as Hact.
  { intros i Hi. apply opened_parity in Hi.
    rewrite events_of_app, length_app.
    destruct (length (events_of i pre)) as [|m]; simpl in *; [by left|right; lia]. }
  assert (a = edge ev ∧ b = s ∨ a = s ∧ b = edge ev) as [[-> ->]|[-> ->]].
  { simplify_eq. destruct (Nat.le_ge_cases (edge ev) s).
    - left. split; lia.
    - right. split; lia. }
  - split; [|by apply Hact]. right.
    rewrite events_of_app, events_of_cons, decide_True, length_app by done.
    simpl. lia.
  - split; [by apply Hact|]. right.
    rewrite events_of_app, events_of_cons, decide_True, length_app by done.
    simpl. lia.
Qed.

Lemma hits_NoDup segments e l : NoDup l → NoDup (hits segments e l).
Proof.
  intros Hnd. unfold hits. apply NoDup_fmap_2_strong; [|by apply NoDup_filter].
  intros s1 s2 H1 H2 Heq.
  apply list_elem_of_filter in H1 as [H1 _], H2 as [H2 _].
  apply reportable_ne in H1, H2. simplify_eq. lia.
Qed.

Lemma all_hits_NoDup ro segments k evs open :
  range_contract ro →
  (∀ i, i ∈ open → length (events_of i evs) = 1%nat) →
  (∀ i, i ∉ open → length (events_of i evs) = 0%nat ∨
                   length (events_of i evs) = 2%nat) →
  NoDup (all_hits ro segments k evs open).
Proof.
  intros Hro. revert k open.
  induction evs as [|e evs IH]; intros k open Hin Hout; simpl; [constructor|].
  assert (∀ i, length (events_of i (e :: evs))
               = if decide (edge e = i) then S (length (events_of i evs))
                 else length (events_of i evs)) as Hcount.
  { intros i. rewrite events_of_cons. by destruct (decide (edge e = i)). }
  destruct (decide (edge e ∈ open)) as [He|He].
  - assert (length (events_of (edge e) evs) = 0%nat) as He0.
    { specialize (Hin _ He). rewrite Hcount, decide_True in Hin by done. lia. }
    apply NoDup_app. split; [|split].
    + destruct (decide (size (open ∖ {[edge e]}) = 0)%nat); [constructor|].
      apply hits_NoDup. rewrite (Hro _ _). apply NoDup_elements.
    + intros [a b] Hnow Hlater.
      apply all_hits_active in Hlater as [Ha Hb]; [|done].
      assert (a = edge e ∨ b = edge e) as [->| ->].
      { destruct (decide (size (open ∖ {[edge e]}) = 0)%nat);
          [by apply elem_of_nil in Hnow|].
        apply hits_elem in Hnow as (s & _ & _ & Hp). simplify_eq. lia. }
      * destruct Ha as [Ha|Ha]; [set_solver|lia].
      * destruct Hb as [Hb|Hb]; [set_solver|lia].
    + apply IH.
      * intros i Hi. assert (i ∈ open ∧ edge e ≠ i) as [Hi1 Hi2] by set_solver.
        specialize (Hin i Hi1). by rewrite Hcount, decide_False in Hin.
      * intros i Hi. destruct (decide (edge e = i)) as [<-|Hne]; [by left|].
        assert (i ∉ open) as Hi1 by set_solver.
        specialize (Hout i Hi1). by rewrite Hcount, decide_False in Hout.
  - apply IH.
    + intros i Hi. destruct (decide (edge e = i)) as [<-|Hne].
      * specialize (Hout _ He). rewrite Hcount, decide_True in Hout by done. lia.
      * assert (i ∈ open) as Hi1 by set_solver.
        specialize (Hin i Hi1). by rewrite Hcount, decide_False in Hin.
    + intros i Hi. assert ((i ∉ open) ∧ edge e ≠ i) as [Hi1 Hi2] by set_solver.
      specialize (Hout i Hi1). by rewrite Hcount, decide_False in Hout.
Qed.

(** X9. Under an always-continue callback no pair of segments is reported
    twice. *)
Theorem reported_NoDup sort Intersect range_order segments :
  sort_contract sort → range_contract range_order →
  NoDup (reported sort Intersect range_order segments).
Proof.
  intros Hsort Hro.
  destruct (Nat.lt_ge_cases (length segments) 3) as [Hn|Hn].
  { unfold reported, FindIntersects.
    destruct (Nat.ltb_spec (length segments) 3); [constructor|lia]. }
  rewrite reported_closed_form by done. apply all_hits_NoDup; [done| |].
  - intros i Hi. by apply elem_of_empty in Hi.
  - intros i _. rewrite events_of_sorted_length by done.
    destruct (decide (i < length segments)%nat); auto.
Qed.

(** X10. Every invocation of the callback, whatever the callback, is on
    two indices of the segment array. *)
Theorem calls_in_range {St : Type} sort Intersect range_order segments
    (fn : @callback St) st :
  sort_contract sort → range_contract range_order →
  Forall (λ c, (srcIdx c < length segments)%nat ∧
               (destIdx c < length segments)%nat)
    (calls_of sort Intersect range_order segments fn st).
Proof.
  intros Hsort Hro.
  destruct (calls_prefix_reported_closed sort Intersect range_order segments
              fn st Hsort) as [Hn|Hpre].
  { rewrite Hn. constructor. }
  apply Forall_forall. intros c Hc.
  assert (call_pair c ∈ all_hits range_order segments 0
            (sort (init_events 0 segments)) ∅) as Hin.
  { destruct Hpre as [rest ->]. apply elem_of_app. left.
    by apply list_elem_of_fmap_2. }
  apply all_hits_elem in Hin; [|done].
  destruct Hin as (pre & ev & post & s & Hsplit & He & Hs & _ & Hp).
  destruct (opened_sorted_prefix sort segments pre (ev :: post) (edge ev)
              Hsort Hsplit) as [_ He'].
  destruct (opened_sorted_prefix sort segments pre (ev :: post) s
              Hsort Hsplit) as [_ Hs'].
  specialize (He' He). specialize (Hs' Hs).
  unfold call_pair in Hp. simplify_eq. lia.
Qed.

(** ** [IsSimple] and the reports; rings of three; the end of the scan *)

Lemma all_hits_short ro sort segments :
  sort_contract sort → range_contract ro → (length segments ≤ 3)%nat →
  all_hits ro segments 0 (sort (init_events 0 segments)) ∅ = [].
Proof.
  intros Hsort Hro Hn.
  destruct (all_hits ro segments 0 (sort (init_events 0 segments)) ∅)
    as [|p l] eqn:Hall; [done|].
  assert (p ∈ all_hits ro segments 0 (sort (init_events 0 segments)) ∅) as Hin
    by (rewrite Hall; by left).
  apply all_hits_elem in Hin; [|done].
  destruct Hin as (pre & ev & post & s & Hsplit & He & Hs & Hr & _).
  destruct (opened_sorted_prefix sort segments pre (ev :: post) (edge ev)
              Hsort Hsplit) as [_ He'].
  destruct (opened_sorted_prefix sort segments pre (ev :: post) s
              Hsort Hsplit) as [_ Hs'].
  pose proof (reportable_four segments (edge ev) s Hr (He' He) (Hs' Hs)). lia.
Qed.

(** X11. [IsSimple] returns [true] exactly when [FindIntersects] reports
    nothing to an always-continue callback; neither side depends on the
    order in which the open set is iterated. *)
Theorem IsSimple_iff_nothing_reported sort Intersect1 Intersect2
    range1 range2 segments :
  sort_contract sort → range_contract range1 → range_contract range2 →
  IsSimple sort Intersect1 range1 segments = true ↔
  reported sort Intersect2 range2 segments = [].
Proof.
  intros Hsort Hr1 Hr2. rewrite (IsSimple_reported _ _ _ _ Hsort).
  rewrite bool_decide_eq_true.
  destruct (Nat.lt_ge_cases (length segments) 3) as [Hn|Hn].
  - unfold reported, FindIntersects.
    by destruct (Nat.ltb_spec (length segments) 3); [|lia].
  - rewrite !reported_closed_form by done.
    pose proof (all_hits_range_perm range1 range2 segments 0
                  (sort (init_events 0 segments)) ∅ Hr1 Hr2) as Hperm.
    split; intros Hnil; rewrite Hnil in Hperm.
    + by apply Permutation_nil_l in Hperm.
    + by apply Permutation_nil_r in Hperm.
Qed.

(** X12. On three segments or fewer the callback is never invoked and
    [IsSimple] is [true], whatever the geometry: in a ring of three every
    two segments are neighbours. *)
Theorem at_most_three_segments {St : Type} sort Intersect range_order segments
    (fn : @callback St) st :
  sort_contract sort → range_contract range_order →
  (length segments ≤ 3)%nat →
  calls_of sort Intersect range_order segments fn st = [] ∧
  IsSimple sort Intersect range_order segments = true.
Proof.
  intros Hsort Hro Hn. split.
  - destruct (calls_prefix_reported_closed sort Intersect range_order segments
                fn st Hsort) as [Hnil|Hpre]; [done|].
    rewrite all_hits_short in Hpre by done.
    apply prefix_nil_inv in Hpre. by apply fmap_nil_inv in Hpre.
  - rewrite (IsSimple_reported _ _ _ _ Hsort). apply bool_decide_eq_true.
    destruct (Nat.lt_ge_cases (length segments) 3) as [Hlt|Hge].
    + unfold reported, FindIntersects.
      by destruct (Nat.ltb_spec (length segments) 3); [|lia].
    + rewrite reported_closed_form by done. by apply all_hits_short.
Qed.

Section Completion.
Context {St : Type}.
Variable Intersect : Line → Line → Pt * bool.
Variable range_order : nat → list nat → list nat.
Variable segments : list Line.
Variable fn : @callback St.
Hypothesis fn_goes_on : never_stops fn.

Local Abbreviation run := (drain Intersect range_order).

Lemma test_open_never_stops e l st :
  snd (test_open Intersect segments fn e l st) = true.
Proof.
  revert st. induction l as [|s l IH]; intros st; [done|].
  rewrite test_open_cons. destruct (reportable segments e s); [|apply IH].
  pose proof (fn_goes_on st (Nat.min e s) (Nat.max e s)
                (λ _, fst (Intersect (segments !!! e) (segments !!! s)))) as Hgo.
  destruct (fn st _ _ _) as [st' b]. simpl in Hgo. subst b. apply IH.
Qed.

Lemma drain_never_stops evs fuel (s : @loop_state St) :
  length (eq (lq s)) = length (edata (lq s)) →
  pending (lq s) = evs → (length evs < fuel)%nat →
  let f := flow_state (run fuel segments fn s) in
  ix (lq f) = (ix (lq s) + length evs)%nat ∧
  isegmap f = opened evs (isegmap s) ∧
  edata (lq f) = edata (lq s) ∧ eq (lq f) = eq (lq s).
Proof.
  revert fuel s. induction evs as [|e evs IH]; intros fuel s Hlen Hp Hfuel;
    (destruct fuel as [|fuel]; [simpl in Hfuel; lia|]); simpl; unfold loop_body.
  { rewrite (Next_exhausted _ Hlen Hp). simpl. repeat split; lia. }
  destruct (Next_pending _ _ _ Hlen Hp) as [-> Hp'].
  assert (length evs < fuel)%nat as Hfuel' by (simpl in Hfuel; lia).
  set (q' := mkQueue (edata (lq s)) (eq (lq s)) (S (ix (lq s)))) in *.
  unfold toggle.
  destruct (decide (edge e ∈ isegmap s)).
  - destruct (decide (size (isegmap s ∖ {[edge e]}) = 0)%nat).
    + destruct (IH fuel (mkLoop q' (isegmap s ∖ {[edge e]}) (cbst s)))
        as (Hix & Hm & Hed & Heq); [done|exact Hp'|done|].
      cbn [lq isegmap ix edata eq q'] in *. repeat split; try done. lia.
    + pose proof (test_open_never_stops (edge e)
                    (range_order (ix q') (elements (isegmap s ∖ {[edge e]})))
                    (cbst s)) as Hgo.
      destruct (test_open Intersect segments fn _ _ _) as [st' go_on].
      simpl in Hgo. subst go_on.
      destruct (IH fuel (mkLoop q' (isegmap s ∖ {[edge e]}) st'))
        as (Hix & Hm & Hed & Heq); [done|exact Hp'|done|].
      cbn [lq isegmap ix edata eq q'] in *. repeat split; try done. lia.
  - destruct (IH fuel (mkLoop q' ({[edge e]} ∪ isegmap s) (cbst s)))
      as (Hix & Hm & Hed & Heq); [done|exact Hp'|done|].
    cbn [lq isegmap ix edata eq q'] in *. repeat split; try done. lia.
Qed.

End Completion.

(** X13. With a callback that never asks to stop, [FindIntersects] leaves
    its loop with every event taken from the queue, the queue exhausted and
    the open set empty: every segment that was opened has been closed. *)
Theorem scan_completes {St : Type} sort Intersect range_order segments
    (fn : @callback St) st :
  sort_contract sort → never_stops fn →
  let final := scan sort Intersect range_order segments fn st in
  ix (lq final) = (2 * length segments)%nat ∧
  isegmap final = ∅ ∧
  fst (Next (lq final)) = None.
Proof.
  intros Hsort Hgo final.
  destruct (Hsort (init_events 0 segments)) as [Hperm _].
  pose proof (Permutation_length Hperm) as Hlen.
  rewrite length_init_events in Hlen.
  destruct (drain_never_stops Intersect range_order segments fn Hgo
              (sort (init_events 0 segments)) (S (2 * length segments))
              (loop_init sort segments st))
    as (Hix & Hm & Hed & Heq); simpl; try done.
  - by rewrite Hlen, length_init_events.
  - lia.
  - fold (scan sort Intersect range_order segments fn st) in Hix, Hm, Hed, Heq.
    fold final in Hix, Hm, Hed, Heq. simpl in Hix, Hm, Hed.
    rewrite Hlen in Hix. split; [done|]. split.
    + rewrite Hm. apply set_eq. intros i. rewrite opened_parity.
      rewrite events_of_sorted_length by done.
      destruct (decide (i < length segments)%nat); simpl; set_solver.
    + unfold Next. rewrite Hed, length_init_events, Hix.
      by rewrite decide_True by lia.
Qed.

(** * The order of tied events *)

(** ** Where the events of a segment stand in a sorted queue *)

Lemma sorted_lookup {A : Type} (R : relation A) (l : list A) i j a b :
  StronglySorted R l → (i < j)%nat → l !! i = Some a → l !! j = Some b → R a b.
Proof.
  intros Hs. revert i j. induction Hs as [|x l Hs IH Hx]; intros i j Hij Hi Hj.
  { done. }
  destruct j as [|j]; [lia|]. destruct i as [|i]; simpl in *.
  - simplify_eq. rewrite Forall_lookup in Hx. by eapply Hx.
  - eapply IH; [|done..]. lia.
Qed.

Lemma events_of_nil_take i l k : events_of i l = [] → events_of i (take k l) = [].
Proof.
  intros H. rewrite <- (take_drop k l), events_of_app in H.
  by apply app_eq_nil in H as [? _].
Qed.

Lemma one_event_position i l b :
  events_of i l = [b] →
  ∃ c, l !! c = Some b ∧ ∀ k, length (events_of i (take k l)) = taken c k.
Proof.
  unfold taken. induction l as [|x l IH]; [done|]. rewrite events_of_cons.
  destruct (decide (edge x = i)) as [Hx|Hx]; intros H.
  - injection H as -> H1. exists 0%nat. split; [done|]. intros [|k]; [done|].
    simpl. rewrite events_of_cons, decide_True by done. simpl.
    by rewrite events_of_nil_take.
  - destruct (IH H) as (c & Hc & Hk). exists (S c). split; [done|].
    intros [|k]; [done|]. simpl. rewrite events_of_cons, decide_False by done.
    rewrite Hk. repeat case_decide; lia.
Qed.

Lemma two_event_positions i l a b :
  events_of i l = [a; b] →
  ∃ o c, (o < c)%nat ∧ l !! o = Some a ∧ l !! c = Some b ∧
         ∀ k, length (events_of i (take k l)) = (taken o k + taken c k)%nat.
Proof.
  induction l as [|x l IH]; [done|]. rewrite events_of_cons.
  destruct (decide (edge x = i)) as [Hx|Hx]; intros H.
  - injection H as -> H1. destruct (one_event_position _ _ _ H1) as (c & Hc & Hk).
    exists 0%nat, (S c). split; [lia|]. split; [done|]. split; [done|].
    intros [|k]; [done|]. simpl. rewrite events_of_cons, decide_True by done.
    simpl. rewrite Hk. unfold taken. repeat case_decide; lia.
  - destruct (IH H) as (o & c & Hoc & Ho & Hc & Hk). exists (S o), (S c).
    split; [lia|]. split; [done|]. split; [done|].
    intros [|k]; [done|]. simpl. rewrite events_of_cons, decide_False by done.
    rewrite Hk. unfold taken. repeat case_decide; lia.
Qed.

(** An event of the segment stands at one of the two places. *)
Lemma event_position i (l : list event) o c k x :
  (∀ k, length (events_of i (take k l)) = (taken o k + taken c k)%nat) →
  l !! k = Some x → edge x = i → k = o ∨ k = c.
Proof.
  intros Hk Hx Hi. pose proof (Hk k) as H0. pose proof (Hk (S k)) as H1.
  rewrite (take_S_r _ _ _ Hx), events_of_app, length_app in H1.
  rewrite H0, events_of_cons in H1.
  destruct (decide (edge x = i)); [|done]. simpl in H1.
  unfold taken in H1. repeat case_decide; lia.
Qed.

Lemma reportable_comm segments e s :
  reportable segments s e = reportable segments e s.
Proof.
  unfold reportable. f_equal.
  - f_equal. rewrite (Nat.eqb_sym s e).
    destruct (e =? s)%nat, ((s + 1) `mod` length segments =? e)%nat,
      ((e + 1) `mod` length segments =? s)%nat; done.
  - unfold DoesIntersect. destruct (_ * _ >? 0); destruct (_ * _ >? 0); done.
Qed.

Lemma reportable_not_adjacent segments e s :
  reportable segments e s = true → ¬ ring_adjacent (length segments) e s.
Proof.
  unfold reportable, ring_adjacent. intros H Hadj.
  apply andb_prop in H as [H _]. apply negb_true_iff in H.
  apply orb_false_elim in H as [H H3]. apply orb_false_elim in H as [H1 H2].
  apply Nat.eqb_neq in H1, H2, H3. destruct Hadj as [?|[?|?]]; congruence.
Qed.

Lemma open_in_prefix i pre :
  i ∈ opened pre ∅ ↔ Nat.odd (length (events_of i pre)) = true.
Proof. rewrite opened_parity. destruct (Nat.odd _); set_solver. Qed.

Lemma xyorder_strict (p r : Pt) : xyorder r p ≠ -1 → r ≠ p → xyorder p r = -1.
Proof.
  intros H Hne. destruct (xyorder_cases p r) as [[H1 H2]|[[H1 H2]|[H1 H2]]];
    [done|congruence|congruence].
Qed.

Section SortedQueue.
Variable segments : list Line.
Variable q : list event.
Hypothesis q_perm : q ≡ₚ init_events 0 segments.
Hypothesis q_sorted : StronglySorted not_after q.

Lemma events_of_queue i :
  events_of i q
  ≡ₚ match segments !! i with Some sg => segment_events i sg | None => [] end.
Proof.
  unfold events_of at 1. rewrite q_perm.
  fold (events_of i (init_events 0 segments)).
  rewrite events_of_init_events, Nat.sub_0_r.
  destruct (segments !! i); [|done]. by rewrite decide_True by lia.
Qed.

(** An earlier event of the queue is at a point that is not after the
    point of a later one. *)
Lemma queue_order i j a b :
  (i < j)%nat → q !! i = Some a → q !! j = Some b → xyorder (ev b) (ev a) ≠ -1.
Proof.
  intros Hij Hi Hj.
  pose proof (sorted_lookup not_after q i j a b q_sorted Hij Hi Hj) as Hna.
  unfold not_after, Less in Hna. by apply Z.eqb_neq in Hna.
Qed.

(** The two events of a segment in the queue: the places at which they
    stand, the points at which they are, and how many of them are among the
    first [k] events. *)
Lemma segment_positions e sg :
  segments !! e = Some sg →
  ∃ o c a b,
    (o < c)%nat ∧ q !! o = Some a ∧ q !! c = Some b ∧
    edge a = e ∧ edge b = e ∧ ev a = lo_pt sg ∧ ev b = hi_pt sg ∧
    ∀ k, length (events_of e (take k q)) = (taken o k + taken c k)%nat.
Proof.
  intros He. pose proof (events_of_queue e) as Hp. rewrite He in Hp.
  pose proof (Permutation_length Hp) as Hlen.
  rewrite length_segment_events in Hlen.
  destruct (events_of e q) as [|a [|b [|? ?]]] eqn:Hev; simplify_eq/=.
  destruct (two_event_positions _ _ _ _ Hev) as (o & c & Hoc & Ho & Hc & Hk).
  assert (a ∈ events_of e q ∧ b ∈ events_of e q) as [Ha Hb]
    by (rewrite Hev; set_solver).
  unfold events_of in Ha, Hb.
  apply list_elem_of_filter in Ha as [Ha _], Hb as [Hb _].
  destruct (first_event_is_lower sg e a b Hp) as [Hlo Hhi].
  { by apply (sorted_lookup not_after q o c). }
  by exists o, c, a, b.
Qed.

Lemma open_in_range pre post i :
  q = pre ++ post → i ∈ opened pre ∅ → is_Some (segments !! i).
Proof.
  intros Hq Hi. apply open_in_prefix in Hi.
  destruct (events_of i pre) as [|x l] eqn:Hev; [done|].
  assert (x ∈ events_of i pre) as Hx by (rewrite Hev; by left).
  unfold events_of in Hx. apply list_elem_of_filter in Hx as [Hxi Hx].
  assert (x ∈ init_events 0 segments) as Hin.
  { rewrite <- q_perm, Hq. apply elem_of_app. by left. }
  apply init_events_edge_bounds in Hin. apply lookup_lt_is_Some. lia.
Qed.

(** Where no segment ends at the point at which a segment that is not its
    neighbour begins, the pairs of the closed form are described without
    the queue: the two segments pass the tests of the inner loop, and each
    of them begins strictly before the other ends. *)
Lemma all_hits_sort_free ro p :
  range_contract ro → no_open_close_tie segments →
  p ∈ all_hits ro segments 0 q ∅ ↔
  ∃ e s sge sgs,
    segments !! e = Some sge ∧ segments !! s = Some sgs ∧
    reportable segments e s = true ∧
    xyorder (lo_pt sgs) (hi_pt sge) = -1 ∧
    xyorder (lo_pt sge) (hi_pt sgs) = -1 ∧
    p = (Nat.min e s, Nat.max e s).
Proof.
  intros Hro Htie. rewrite all_hits_elem by done. split.
  - intros (pre & x & post & s & Hq & He & Hs & Hr & ->).
    destruct (open_in_range pre (x :: post) (edge x) Hq He) as [sge Hsge].
    destruct (open_in_range pre (x :: post) s Hq Hs) as [sgs Hsgs].
    destruct (segment_positions _ _ Hsge)
      as (oe & ce & ae & be & Hoce & Hoe & Hce & Hae & Hbe & Hlo & Hhi & Hke).
    destruct (segment_positions _ _ Hsgs)
      as (os & cs & as' & bs & Hocs & Hos & Hcs & Has & Hbs & Hlos & Hhis & Hks).
    apply open_in_prefix in He, Hs.
    assert (q !! length pre = Some x) as Hx
      by (rewrite Hq; by apply list_lookup_middle).
    assert (pre = take (length pre) q) as Hpre
      by (rewrite Hq; by rewrite take_app_length).
    rewrite Hpre, Hke in He. rewrite Hpre, Hks in Hs.
    pose proof (reportable_ne _ _ _ Hr) as Hne.
    assert (length pre ≠ cs) as Hncs
      by (intros Heq; rewrite Heq, Hcs in Hx; simplify_eq).
    assert (os < ce ∧ ce < cs)%nat as [H1 H2].
    { unfold taken in He, Hs.
      destruct (event_position _ _ _ _ _ _ Hke Hx eq_refl) as [Hk|Hk];
        repeat case_decide; simpl in *; try done; lia. }
    assert (oe < cs)%nat as H3 by lia.
    exists (edge x), s, sge, sgs. repeat split; try done.
    + rewrite <- Hlos, <- Hhi. apply xyorder_strict.
      * by apply (queue_order os ce).
      * rewrite Hhi, Hlos. apply (Htie (edge x) s); try done.
        by apply reportable_not_adjacent.
    + rewrite <- Hlo, <- Hhis. apply xyorder_strict.
      * by apply (queue_order oe cs).
      * rewrite Hhis, Hlo. apply (Htie s (edge x)); try done.
        apply reportable_not_adjacent. by rewrite reportable_comm.
  - intros (e & s & sge & sgs & Hsge & Hsgs & Hr & Hse & Hes & ->).
    destruct (segment_positions _ _ Hsge)
      as (oe & ce & ae & be & Hoce & Hoe & Hce & Hae & Hbe & Hlo & Hhi & Hke).
    destruct (segment_positions _ _ Hsgs)
      as (os & cs & as' & bs & Hocs & Hos & Hcs & Has & Hbs & Hlos & Hhis & Hks).
    pose proof (reportable_ne _ _ _ Hr) as Hne.
    assert (os < ce)%nat as H1.
    { destruct (Nat.lt_trichotomy os ce) as [?|[Heq|Hgt]]; [done| |].
      - rewrite Heq, Hce in Hos. congruence.
      - pose proof (queue_order ce os _ _ Hgt Hce Hos) as Hna.
        by rewrite Hlos, Hhi in Hna. }
    assert (oe < cs)%nat as H2.
    { destruct (Nat.lt_trichotomy oe cs) as [?|[Heq|Hgt]]; [done| |].
      - rewrite Heq, Hcs in Hoe. congruence.
      - pose proof (queue_order cs oe _ _ Hgt Hcs Hoe) as Hna.
        by rewrite Hlo, Hhis in Hna. }
    destruct (Nat.lt_trichotomy ce cs) as [Hlt|[Heq|Hgt]].
    + exists (take ce q), be, (drop (S ce) q), s.
      split; [by rewrite take_drop_middle|].
      rewrite !open_in_prefix, Hbe, Hke, Hks. unfold taken.
      repeat split; try done; repeat case_decide; try done; lia.
    + rewrite Heq, Hcs in Hce. congruence.
    + exists (take cs q), bs, (drop (S cs) q), e.
      split; [by rewrite take_drop_middle|].
      rewrite !open_in_prefix, Hbs, Hke, Hks, reportable_comm. unfold taken.
      repeat split; try done; try (repeat case_decide; try done; lia).
      f_equal; lia.
Qed.

End SortedQueue.

Lemma all_hits_queue_NoDup ro segments q :
  range_contract ro → q ≡ₚ init_events 0 segments →
  NoDup (all_hits ro segments 0 q ∅).
Proof.
  intros Hro Hq. apply all_hits_NoDup; [done| |].
  - intros i Hi. by apply elem_of_empty in Hi.
  - intros i _. rewrite (events_of_queue segments q Hq i).
    destruct (segments !! i); [right; apply length_segment_events|by left].
Qed.

(** Two sorted queues of the events of one array give the same pairs,
    whatever the order in which each of them puts tied events. *)
Lemma all_hits_sort_indep ro1 ro2 segments q1 q2 :
  range_contract ro1 → range_contract ro2 →
  q1 ≡ₚ init_events 0 segments → StronglySorted not_after q1 →
  q2 ≡ₚ init_events 0 segments → StronglySorted not_after q2 →
  no_open_close_tie segments →
  all_hits ro1 segments 0 q1 ∅ ≡ₚ all_hits ro2 segments 0 q2 ∅.
Proof.
  intros Hr1 Hr2 Hp1 Hs1 Hp2 Hs2 Htie.
  apply NoDup_Permutation; try by apply all_hits_queue_NoDup.
  intros p. by rewrite !all_hits_sort_free.
Qed.

(** ** The reported pairs and the sort *)

(** C9, as amended. The pairs reported under an always-continue callback
    are the same, as a multiset and so as a set, in any two runs on one
    segment array, whatever sorted permutation of the events each sort
    returns and whatever the order in which each run iterates over the open
    set, provided no segment ends at the point at which a segment that is
    not its ring neighbour begins; where there is such a tie, they are the
    same in any two runs whose sorts put the events in the same order. *)
Theorem reported_pairs_deterministic sort1 sort2 Intersect1 Intersect2
    range1 range2 segments :
  sort_contract sort1 → sort_contract sort2 →
  range_contract range1 → range_contract range2 →
  sort1 (init_events 0 segments) = sort2 (init_events 0 segments)
  ∨ no_open_close_tie segments →
  reported sort1 Intersect1 range1 segments
  ≡ₚ reported sort2 Intersect2 range2 segments.
Proof.
  intros Hs1 Hs2 Hr1 Hr2 Hsame.
  destruct (Nat.lt_ge_cases (length segments) 3) as [Hn|Hn].
  { unfold reported, FindIntersects.
    by destruct (Nat.ltb_spec (length segments) 3); [|lia]. }
  rewrite !reported_closed_form by done.
  destruct Hsame as [Heq|Htie].
  - rewrite Heq. by apply all_hits_range_perm.
  - destruct (Hs1 (init_events 0 segments)), (Hs2 (init_events 0 segments)).
    by apply all_hits_sort_indep.
Qed.

(** C8, as amended. Exchanging the two endpoints of one segment changes
    neither the result of [IsSimple] nor the pairs reported under an
    always-continue callback, whatever sorted permutation the sort returns
    for either array, provided no segment ends at the point at which a
    segment that is not its ring neighbour begins; where there is such a
    tie, the same holds provided the sort puts the events of the two arrays
    in the same order.  The two arrays give the same events and the same
    result of [DoesIntersect] on every two segments, and a stable sort puts
    the events in the same order. *)
Theorem reversal_invariance sort Intersect1 Intersect2 range1 range2 i segments :
  sort_contract sort → range_contract range1 → range_contract range2 →
  sort (init_events 0 (reverse_at i segments)) = sort (init_events 0 segments)
  ∨ no_open_close_tie segments →
  IsSimple sort Intersect1 range1 (reverse_at i segments)
  = IsSimple sort Intersect2 range2 segments ∧
  reported sort Intersect1 range1 (reverse_at i segments)
  ≡ₚ reported sort Intersect2 range2 segments ∧
  init_events 0 (reverse_at i segments) ≡ₚ init_events 0 segments ∧
  (∀ a b, DoesIntersect (reverse_at i segments !!! a) (reverse_at i segments !!! b)
          = DoesIntersect (segments !!! a) (segments !!! b)) ∧
  stable_sort (init_events 0 (reverse_at i segments))
  = stable_sort (init_events 0 segments).
Proof.
  intros Hs Hr1 Hr2 Hsame.
  assert (reported sort Intersect1 range1 (reverse_at i segments)
          ≡ₚ reported sort Intersect2 range2 segments) as Hrep.
  { destruct (Nat.lt_ge_cases (length segments) 3) as [Hn|Hn].
    - unfold reported, FindIntersects. unfold reverse_at at 1. rewrite length_alter.
      by destruct (Nat.ltb_spec (length segments) 3); [|lia].
    - rewrite !reported_closed_form; try done.
      + rewrite all_hits_reverse_at. destruct Hsame as [Heq|Htie].
        * rewrite Heq. by apply all_hits_range_perm.
        * destruct (Hs (init_events 0 (reverse_at i segments))) as [Hp' Hs'].
          destruct (Hs (init_events 0 segments)) as [Hp0 Hs0].
          apply all_hits_sort_indep; try done.
          by rewrite Hp', init_events_reverse_at.
      + unfold reverse_at. by rewrite length_alter. }
  split; [|split; [done|split; [|split]]].
  - rewrite !IsSimple_reported by done. apply bool_decide_ext.
    split; intros Hnil; rewrite Hnil in Hrep.
    + by apply Permutation_nil_l in Hrep.
    + by apply Permutation_nil_r in Hrep.
  - apply init_events_reverse_at.
  - intros a b.
    destruct (reverse_at_lookup_total i segments a) as [-> | ->],
      (reverse_at_lookup_total i segments b) as [-> | ->];
      by rewrite ?DoesIntersect_reverse_l, ?DoesIntersect_reverse_r.
  - apply stable_sort_reverse_at.
Qed.

(** On the bowtie no segment ends where a segment that is not its
    neighbour begins, and the sorts at hand order its events differently. *)
Lemma bowtie_no_open_close_tie : no_open_close_tie bowtie.
Proof.
  intros e s sge sgs He Hs Hadj.
  destruct e as [|[|[|[|e]]]]; simplify_eq/=;
    destruct s as [|[|[|[|s]]]]; simplify_eq/=;
    first [ by vm_compute
          | exfalso; apply Hadj; unfold ring_adjacent; vm_compute; tauto ].
Qed.

Lemma reported_pairs_deterministic_witness :
  stable_sort (init_events 0 bowtie) ≠ reversing_sort (init_events 0 bowtie) ∧
  reported stable_sort no_solver in_order bowtie
  ≡ₚ reported reversing_sort no_solver (λ _ l, reverse l) bowtie.
Proof.
  split; [by vm_compute|].
  apply (reported_pairs_deterministic stable_sort reversing_sort no_solver
           no_solver in_order (λ _ l, reverse l) bowtie).
  - apply stable_sort_contract.
  - apply reversing_sort_contract.
  - apply in_order_contract.
  - intros k l. apply reverse_Permutation.
  - right. apply bowtie_no_open_close_tie.
Defined.

Lemma reversal_invariance_witness :
  gap_sort (init_events 0 (reverse_at 0 bowtie))
  ≠ gap_sort (init_events 0 bowtie) ∧
  IsSimple gap_sort no_solver in_order (reverse_at 0 bowtie)
  = IsSimple gap_sort no_solver in_order bowtie ∧
  reported gap_sort no_solver in_order (reverse_at 0 bowtie)
  ≡ₚ reported gap_sort no_solver in_order bowtie ∧
  init_events 0 (reverse_at 0 bowtie) ≡ₚ init_events 0 bowtie ∧
  (∀ a b, DoesIntersect (reverse_at 0 bowtie !!! a) (reverse_at 0 bowtie !!! b)
          = DoesIntersect (bowtie !!! a) (bowtie !!! b)) ∧
  stable_sort (init_events 0 (reverse_at 0 bowtie))
  = stable_sort (init_events 0 bowtie).
Proof.
  split; [by vm_compute|].
  apply (reversal_invariance gap_sort no_solver no_solver in_order in_order
           0 bowtie).
  - apply gap_sort_contract.
  - apply in_order_contract.
  - apply in_order_contract.
  - right. apply bowtie_no_open_close_tie.
Defined.

(** * Further properties of package [log] *)

Section LogGating.
Context {Arg : Type}.
Implicit Types (g : @Log.globals Arg) (lvl : Log.Level).

Lemma effective_defined lvl : Log.defined_level lvl → Log.effective lvl = lvl.
Proof. intros [->|[->|[->|[->|[->| ->]]]]]; done. Qed.

Lemma effective_undefined lvl :
  ¬ Log.defined_level lvl → Log.effective lvl = Log.INFO.
Proof.
  intros Hn. unfold Log.defined_level in Hn. unfold Log.effective.
  assert (lvl ≠ Log.TRACE ∧ lvl ≠ Log.DEBUG ∧ lvl ≠ Log.INFO ∧
          lvl ≠ Log.WARN ∧ lvl ≠ Log.ERROR ∧ lvl ≠ Log.FATAL) as (?&?&?&?&?&?)
    by tauto.
  repeat match goal with
         | H : lvl ≠ ?c |- _ => apply Z.eqb_neq in H; rewrite H; clear H
         end.
  done.
Qed.

Lemma SetLogLevel_follows g lvl :
  let g' := Log.SetLogLevel lvl g in
  Log.level g' = Log.effective lvl ∧ Log.sink g' = Log.sink g ∧
  Log.flags_follow_level g'.
Proof.
  assert (∀ l, Log.defined_level l →
               Log.level (Log.SetLogLevel l g) = l ∧
               Log.sink (Log.SetLogLevel l g) = Log.sink g ∧
               Log.flags_follow_level (Log.SetLogLevel l g)) as Hdef.
  { intros l Hl. unfold Log.flags_follow_level.
    destruct Hl as [->|[->|[->|[->|[->| ->]]]]]; cbn;
      unfold Log.defined_level; repeat split; auto 10. }
  intros g'. subst g'. destruct (decide (Log.defined_level lvl)) as [Hd|Hd].
  - rewrite (effective_defined _ Hd). by apply Hdef.
  - rewrite (effective_undefined _ Hd), (SetLogLevel_undefined _ _ Hd).
    apply Hdef. unfold Log.defined_level. auto.
Qed.

Lemma emit_follows m fmt a g :
  Log.flags_follow_level g →
  Log.level (Log.emit m fmt a g) = Log.level g ∧
  Log.flags_follow_level (Log.emit m fmt a g) ∧
  Log.sink (Log.emit m fmt a g)
  = if Log.level g <=? Log.severity m
    then Log.sink g ++ [Log.mkEntry m fmt a] else Log.sink g.
Proof.
  intros (Hd & He & Hw & Hi & Hdb & Ht).
  assert ((Log.level g <=? Log.FATAL) = true) as Hf.
  { apply Z.leb_le.
    destruct Hd as [->|[->|[->|[->|[->| ->]]]]]; by vm_compute. }
  unfold Log.flags_follow_level.
  destruct m; simpl;
    unfold Log.Fatal, Log.Error, Log.Warn, Log.Info, Log.Debug, Log.Trace.
  - rewrite Hf. simpl. auto 10.
  - rewrite <- He. destruct (Log.IsError g) eqn:E; simpl; rewrite ?E; auto 10.
  - rewrite <- Hw. destruct (Log.IsWarn g) eqn:E; simpl; rewrite ?E; auto 10.
  - rewrite <- Hi. destruct (Log.IsInfo g) eqn:E; simpl; rewrite ?E; auto 10.
  - rewrite <- Hdb. destruct (Log.IsDebug g) eqn:E; simpl; rewrite ?E; auto 10.
  - rewrite <- Ht. destruct (Log.IsTrace g) eqn:E; simpl; rewrite ?E; auto 10.
Qed.

(** X14. After [SetLogLevel lvl] the level is [lvl], or [INFO] when [lvl]
    is none of the six levels; the sink is untouched; and each flag is set
    exactly when the level is at most the severity the flag stands for. *)
Theorem SetLogLevel_flags g lvl :
  let g' := Log.SetLogLevel lvl g in
  Log.level g' = Log.effective lvl ∧
  (Log.defined_level lvl → Log.level g' = lvl) ∧
  Log.sink g' = Log.sink g ∧
  Log.IsError g' = (Log.level g' <=? Log.ERROR) ∧
  Log.IsWarn g' = (Log.level g' <=? Log.WARN) ∧
  Log.IsInfo g' = (Log.level g' <=? Log.INFO) ∧
  Log.IsDebug g' = (Log.level g' <=? Log.DEBUG) ∧
  Log.IsTrace g' = (Log.level g' <=? Log.TRACE).
Proof.
  intros g'. destruct (SetLogLevel_follows g lvl) as (Hl & Hs & _ & Hflags).
  fold g' in Hl, Hs, Hflags. split; [done|]. split; [|by split].
  intros Hd. by rewrite Hl, effective_defined.
Qed.

(** X15. A sequence of calls of the six forwarding functions after
    [SetLogLevel lvl] hands to the logger, in order, exactly the calls whose
    severity is at least the level; [Fatal] always is.  The calls change
    neither the level nor a flag. *)
Theorem emit_all_filters g lvl (calls : list (@Log.entry Arg)) :
  let g' := Log.emit_all calls (Log.SetLogLevel lvl g) in
  Log.sink g'
  = Log.sink g
    ++ filter (λ c, Log.effective lvl ≤ Log.severity (Log.meth c)) calls ∧
  Log.level g' = Log.effective lvl ∧
  Log.IsError g' = Log.IsError (Log.SetLogLevel lvl g) ∧
  Log.IsWarn g' = Log.IsWarn (Log.SetLogLevel lvl g) ∧
  Log.IsInfo g' = Log.IsInfo (Log.SetLogLevel lvl g) ∧
  Log.IsDebug g' = Log.IsDebug (Log.SetLogLevel lvl g) ∧
  Log.IsTrace g' = Log.IsTrace (Log.SetLogLevel lvl g).
Proof.
  destruct (SetLogLevel_follows g lvl) as (Hl & Hs & Hflags).
  cbv zeta in *. rewrite <- Hl, <- Hs. clear Hl Hs.
  generalize dependent (Log.SetLogLevel lvl g). clear g lvl.
  intros g Hflags.
  assert (∀ g0, Log.flags_follow_level g0 → Log.level g0 = Log.level g →
            Log.sink (Log.emit_all calls g0)
            = Log.sink g0
              ++ filter (λ c, Log.level g ≤ Log.severity (Log.meth c)) calls ∧
            Log.level (Log.emit_all calls g0) = Log.level g ∧
            Log.flags_follow_level (Log.emit_all calls g0)) as Hgen.
  { induction calls as [|c calls IH]; intros g0 Hf Hlev.
    { simpl. by rewrite app_nil_r. }
    destruct (emit_follows (Log.meth c) (Log.format c) (Log.args c) g0 Hf)
      as (Hl1 & Hf1 & Hs1).
    unfold Log.emit_all in *. simpl foldl.
    destruct (IH _ Hf1 (eq_trans Hl1 Hlev)) as (Hs2 & Hl2 & Hf2).
    split; [|by split]. rewrite Hs2, Hs1, filter_cons, Hlev.
    destruct c as [m fmt a]. simpl.
    destruct (Z.leb_spec (Log.level g) (Log.severity m)).
    - rewrite decide_True by done. by rewrite <- app_assoc.
    - by rewrite decide_False by lia. }
  destruct (Hgen g Hflags eq_refl) as (Hs & Hl & (_ & He & Hw & Hi & Hd & Ht)).
  destruct Hflags as (_ & He0 & Hw0 & Hi0 & Hd0 & Ht0).
  rewrite Hs, He, Hw, Hi, Hd, Ht, Hl, He0, Hw0, Hi0, Hd0, Ht0. done.
Qed.

(** X16. [SetLogLevel] forgets the level and the flags it finds: of two
    calls in a row only the second counts, and a level that is none of the
    six leaves what [INFO] leaves. *)
Theorem SetLogLevel_last_wins g lvl1 lvl2 :
  Log.SetLogLevel lvl2 (Log.SetLogLevel lvl1 g) = Log.SetLogLevel lvl2 g ∧
  Log.SetLogLevel (Log.effective lvl2) g = Log.SetLogLevel lvl2 g.
Proof.
  assert (∀ g1 g2 : @Log.globals Arg, Log.sink g1 = Log.sink g2 →
            ∀ l, Log.SetLogLevel l g1 = Log.SetLogLevel l g2) as Hsink.
  { intros [s1 ? ? ? ? ? ?] [s2 ? ? ? ? ? ?] Hs l. simpl in Hs. subst s2.
    unfold Log.SetLogLevel. simpl.
    repeat match goal with |- context [if ?b then _ else _] => destruct b end;
      done. }
  split.
  - apply Hsink. by destruct (SetLogLevel_follows g lvl1) as (_ & ? & _).
  - destruct (decide (Log.defined_level lvl2)) as [Hd|Hd].
    + by rewrite effective_defined.
    + by rewrite (effective_undefined _ Hd), (SetLogLevel_undefined _ _ Hd).
Qed.

End LogGating.

(** * Properties of package [mbtiles] *)

(** X17. [isGzip] never reads past the end of its argument, and is [true]
    exactly on the slices that begin with the two bytes 1f 8b. *)
Theorem isGzip_magic (b : list Byte.byte) :
  (∃ r, Mbtiles.isGzip b = Some r) ∧
  (Mbtiles.isGzip b = Some true ↔ ∃ rest, b = Byte.x1f :: Byte.x8b :: rest).
Proof.
  unfold Mbtiles.isGzip. destruct b as [|b0 [|b1 rest]]; simpl.
  - split; [eauto|]. split; [done|]. by intros [? ?].
  - split; [eauto|]. split; [done|]. by intros [? ?].
  - destruct (Byte.eqb b0 Byte.x1f) eqn:H0.
    + apply Byte.byte_dec_bl in H0 as ->. split; [eauto|]. split.
      * intros [= H1]. apply Byte.byte_dec_bl in H1 as ->. eauto.
      * intros [? [= -> ->]]. done.
    + split; [eauto|]. split; [done|]. intros [? [= -> ->]]. done.
Qed.

Section MetaData.
Variable Err : Type.
Variable errors_New : string → Err.
Variable F : Type.
Variable zero_F : F.
Variable ParseFloat : string → F * option Err.
Variable ParseInt : string → Z * option Err.
Variable Split : string → list string.

Local Abbreviation meta_row :=
  (Mbtiles.meta_row Err errors_New F zero_F ParseFloat ParseInt Split).
Local Abbreviation meta_rows :=
  (Mbtiles.meta_rows Err errors_New F zero_F ParseFloat ParseInt Split).
Local Abbreviation getMetaData :=
  (Mbtiles.getMetaData Err errors_New F zero_F ParseFloat ParseInt Split).

(** A row whose name is none of the seven changes nothing. *)
Lemma meta_row_unknown st k v :
  Mbtiles.known_name k = false → meta_row st (inr (k, v)) = inr st.
Proof.
  unfold Mbtiles.known_name. intros H.
  repeat (apply orb_false_elim in H as [H ?]).
  destruct st as [[] err]. unfold Mbtiles.meta_row.
  repeat match goal with H : String.eqb _ _ = false |- _ => rewrite H; clear H end.
  done.
Qed.

Lemma meta_rows_app st rows1 rows2 :
  meta_rows st (rows1 ++ rows2)
  = match meta_rows st rows1 with
    | inl e => inl e
    | inr st' => meta_rows st' rows2
    end.
Proof.
  revert st. induction rows1 as [|r rows1 IH]; intros st; simpl; [done|].
  destruct (meta_row st r); [done|]. apply IH.
Qed.

(** X18. A row whose name is none of the seven names the function looks
    for has no effect on the result, wherever it stands among the rows. *)
Theorem getMetaData_ignores_unknown rows1 rows2 k v :
  Mbtiles.known_name k = false →
  getMetaData (inr (rows1 ++ inr (k, v) :: rows2))
  = getMetaData (inr (rows1 ++ rows2)).
Proof.
  intros Hk. unfold Mbtiles.getMetaData. rewrite !meta_rows_app.
  destruct (meta_rows (Mbtiles.zero_meta F, None) rows1) as [e|st]; [done|].
  simpl. by rewrite (meta_row_unknown st k v Hk).
Qed.

(** What a row that does not make the function return leaves behind, the
    variable [err] being [nil] when the row is reached. *)
Lemma meta_row_step (m0 m1 : Mbtiles.metaData F) e1 k v :
  meta_row (m0, None) (inr (k, v)) = inr (m1, e1) →
  e1 = None ∧
  Mbtiles.name m1 = (if String.eqb k "name" then v else Mbtiles.name m0) ∧
  Mbtiles.mapType m1 = (if String.eqb k "type" then v else Mbtiles.mapType m0) ∧
  Mbtiles.description m1
  = (if String.eqb k "description" then v else Mbtiles.description m0) ∧
  Mbtiles.format m1 = (if String.eqb k "format" then v else Mbtiles.format m0) ∧
  Mbtiles.attribution m1
  = (if String.eqb k "attribution" then Some v else Mbtiles.attribution m0) ∧
  (if String.eqb k "version" then ParseInt v = (Mbtiles.version m1, None)
   else Mbtiles.version m1 = Mbtiles.version m0) ∧
  (if String.eqb k "bounds"
   then ∃ l bo ri to,
          length (Split v) = 4%nat ∧
          ParseFloat (Split v !!! 0%nat) = (l, None) ∧
          ParseFloat (Split v !!! 1%nat) = (bo, None) ∧
          ParseFloat (Split v !!! 2%nat) = (ri, None) ∧
          ParseFloat (Split v !!! 3%nat) = (to, None) ∧
          Mbtiles.mbounds m1 = Some (Mbtiles.mkBounds l bo ri to)
   else Mbtiles.mbounds m1 = Mbtiles.mbounds m0).
Proof.
  destruct m0 as [n0 t0 v0 d0 f0 b0 a0]. unfold Mbtiles.meta_row.
  destruct (String.eqb_spec k "name") as [->|_]; simpl.
  { intros [= <- <-]. by repeat split. }
  destruct (String.eqb_spec k "type") as [->|_]; simpl.
  { intros [= <- <-]. by repeat split. }
  destruct (String.eqb_spec k "version") as [->|_]; simpl.
  { destruct (ParseInt v) as [z [e|]]; simpl; [done|].
    intros [= <- <-]. by repeat split. }
  destruct (String.eqb_spec k "description") as [->|_]; simpl.
  { intros [= <- <-]. by repeat split. }
  destruct (String.eqb_spec k "format") as [->|_]; simpl.
  { intros [= <- <-]. by repeat split. }
  destruct (String.eqb_spec k "bounds") as [->|_]; simpl.
  { destruct (Nat.eqb_spec (length (Split v)) 4) as [Hlen|_]; simpl; [|done].
    unfold Mbtiles.parse_bound.
    destruct (ParseFloat (Split v !!! 0%nat)) as [l [e|]] eqn:H0; simpl; [done|].
    destruct (ParseFloat (Split v !!! 1%nat)) as [bo [e|]] eqn:H1; simpl; [done|].
    destruct (ParseFloat (Split v !!! 2%nat)) as [ri [e|]] eqn:H2; simpl; [done|].
    destruct (ParseFloat (Split v !!! 3%nat)) as [to [e|]] eqn:H3; simpl; [done|].
    intros [= <- <-]. repeat split; try done. by exists l, bo, ri, to. }
  destruct (String.eqb_spec k "attribution") as [->|_]; simpl.
  { intros [= <- <-]. by repeat split. }
  intros [= <- <-]. by repeat split.
Qed.

Lemma meta_rows_cons st r rows :
  meta_rows st (r :: rows)
  = match meta_row st r with
    | inl e => inl e
    | inr st' => meta_rows st' rows
    end.
Proof. done. Qed.

Lemma meta_rows_step (m0 mf : Mbtiles.metaData F) ef r rows :
  meta_rows (m0, None) (r :: rows) = inr (mf, ef) →
  ∃ k v m1, r = inr (k, v) ∧ meta_row (m0, None) r = inr (m1, None) ∧
            meta_rows (m1, None) rows = inr (mf, ef).
Proof.
  rewrite meta_rows_cons. destruct r as [e|[k v]]; [done|].
  destruct (meta_row (m0, None) (inr (k, v))) as [e|[m1 e1]] eqn:Hrow; [done|].
  destruct (meta_row_step _ _ _ _ _ Hrow) as [-> _]. intros H.
  by exists k, v, m1.
Qed.

Local Abbreviation row_accepted := (Mbtiles.row_accepted Err F ParseFloat ParseInt Split).

Lemma values_of_cons nm (r : Mbtiles.scanned Err) rows :
  Mbtiles.values_of nm (r :: rows)
  = match r with
    | inr (k, v) => if String.eqb k nm then v :: Mbtiles.values_of nm rows
                    else Mbtiles.values_of nm rows
    | inl _ => Mbtiles.values_of nm rows
    end.
Proof.
  unfold Mbtiles.values_of. simpl. destruct r as [e|[k v]]; [done|].
  by destruct (String.eqb k nm).
Qed.

(** A field that each row named [nm] overwrites holds what the last such
    row wrote. *)
Lemma field_last_wins {A : Type} (get : Mbtiles.metaData F → A) nm (put : string → A) :
  (∀ m0 m1 e1 k v,
     meta_row (m0, None) (inr (k, v)) = inr (m1, e1) →
     get m1 = if String.eqb k nm then put v else get m0) →
  ∀ rows m0 mf ef,
    meta_rows (m0, None) rows = inr (mf, ef) →
    get mf = default (get m0) (put <$> last (Mbtiles.values_of nm rows)).
Proof.
  intros Hstep rows. induction rows as [|r rows IH]; intros m0 mf ef Hrun.
  { simpl in Hrun. by simplify_eq. }
  destruct (meta_rows_step _ _ _ _ _ Hrun) as (k & v & m1 & -> & Hrow & Hrest).
  rewrite (IH _ _ _ Hrest), (Hstep _ _ _ _ _ Hrow), values_of_cons.
  destruct (String.eqb k nm); [|done].
  rewrite last_cons. by destruct (last (Mbtiles.values_of nm rows)).
Qed.

(** X19. When [getMetaData] succeeds, each field holds what the last row
    of its name wrote, and its zero value when there is no such row. *)
Theorem getMetaData_last_wins rows meta :
  getMetaData (inr rows) = inr meta →
  Mbtiles.name meta = default "" (last (Mbtiles.values_of "name" rows)) ∧
  Mbtiles.mapType meta = default "" (last (Mbtiles.values_of "type" rows)) ∧
  Mbtiles.description meta
  = default "" (last (Mbtiles.values_of "description" rows)) ∧
  Mbtiles.format meta = default "" (last (Mbtiles.values_of "format" rows)) ∧
  Mbtiles.attribution meta = last (Mbtiles.values_of "attribution" rows) ∧
  Mbtiles.version meta
  = default 0 (fst ∘ ParseInt <$> last (Mbtiles.values_of "version" rows)).
Proof.
  unfold Mbtiles.getMetaData.
  destruct (meta_rows (Mbtiles.zero_meta F, None) rows) as [e|[mf ef]] eqn:Hrun;
    [done|].
  intros [= <-].
  pose proof (field_last_wins Mbtiles.name "name" id) as Hname.
  pose proof (field_last_wins Mbtiles.mapType "type" id) as Htype.
  pose proof (field_last_wins Mbtiles.description "description" id) as Hdesc.
  pose proof (field_last_wins Mbtiles.format "format" id) as Hform.
  pose proof (field_last_wins Mbtiles.attribution "attribution" Some) as Hattr.
  pose proof (field_last_wins Mbtiles.version "version" (fst ∘ ParseInt)) as Hver.
  rewrite (Hname ltac:(intros ? ? ? ? ? H; by apply meta_row_step in H as (?&?&?)) _ _ _ _ Hrun).
  rewrite (Htype ltac:(intros ? ? ? ? ? H; by apply meta_row_step in H as (?&?&?&?)) _ _ _ _ Hrun).
  rewrite (Hdesc ltac:(intros ? ? ? ? ? H; by apply meta_row_step in H as (?&?&?&?&?)) _ _ _ _ Hrun).
  rewrite (Hform ltac:(intros ? ? ? ? ? H; by apply meta_row_step in H as (?&?&?&?&?&?)) _ _ _ _ Hrun).
  rewrite (Hattr ltac:(intros ? ? ? ? ? H; by apply meta_row_step in H as (?&?&?&?&?&?&?)) _ _ _ _ Hrun).
  rewrite (Hver ltac:(intros ? ? ? k v H; apply meta_row_step in H as (?&?&?&?&?&?&Hv&?);
                      destruct (String.eqb k "version"); [simpl; by rewrite Hv|done])
             _ _ _ _ Hrun).
  simpl. rewrite !option_fmap_id.
  repeat split; try done.
  by destruct (last (Mbtiles.values_of "attribution" rows)).
Qed.

Lemma meta_row_accepts (m0 : Mbtiles.metaData F) r :
  row_accepted r ↔ ∃ m1, meta_row (m0, None) r = inr (m1, None).
Proof.
  destruct r as [e|[k v]].
  { simpl. split; [done|]. by intros [m1 H]. }
  split.
  - intros [Hver Hb]. destruct m0 as [n0 t0 v0 d0 f0 b0 a0].
    unfold Mbtiles.meta_row.
    destruct (String.eqb_spec k "name") as [->|_]; simpl; [by eexists|].
    destruct (String.eqb_spec k "type") as [->|_]; simpl; [by eexists|].
    destruct (String.eqb_spec k "version") as [->|_]; simpl.
    { specialize (Hver eq_refl). destruct (ParseInt v) as [z o]. simpl in Hver.
      subst o. by eexists. }
    destruct (String.eqb_spec k "description") as [->|_]; simpl; [by eexists|].
    destruct (String.eqb_spec k "format") as [->|_]; simpl; [by eexists|].
    destruct (String.eqb_spec k "bounds") as [->|_]; simpl.
    { destruct (Hb eq_refl) as [Hlen Hparse]. rewrite Hlen. simpl.
      unfold Mbtiles.parse_bound.
      pose proof (Hparse 0%nat ltac:(lia)) as H0.
      pose proof (Hparse 1%nat ltac:(lia)) as H1.
      pose proof (Hparse 2%nat ltac:(lia)) as H2.
      pose proof (Hparse 3%nat ltac:(lia)) as H3.
      destruct (ParseFloat (Split v !!! 0%nat)) as [? o0]; simpl in H0; subst o0.
      destruct (ParseFloat (Split v !!! 1%nat)) as [? o1]; simpl in H1; subst o1.
      destruct (ParseFloat (Split v !!! 2%nat)) as [? o2]; simpl in H2; subst o2.
      destruct (ParseFloat (Split v !!! 3%nat)) as [? o3]; simpl in H3; subst o3.
      by eexists. }
    destruct (String.eqb_spec k "attribution") as [->|_]; simpl; by eexists.
  - intros [m1 Hrow]. apply meta_row_step in Hrow as (_&_&_&_&_&_&Hv&Hb).
    split.
    + intros ->. simpl in Hv. by rewrite Hv.
    + intros ->. simpl in Hb. destruct Hb as (l&bo&ri&to&Hlen&H0&H1&H2&H3&_).
      split; [done|]. intros i Hi.
      destruct i as [|[|[|[|i]]]]; [by rewrite H0|by rewrite H1|by rewrite H2
                                    |by rewrite H3|lia].
Qed.

Lemma meta_rows_accepts rows (m0 : Mbtiles.metaData F) :
  Forall row_accepted rows ↔ ∃ mf, meta_rows (m0, None) rows = inr (mf, None).
Proof.
  revert m0. induction rows as [|r rows IH]; intros m0.
  { split; [by eexists|constructor]. }
  rewrite Forall_cons, meta_rows_cons. split.
  - intros [Hr Hrows]. apply (meta_row_accepts m0) in Hr as [m1 ->].
    by apply IH.
  - intros [mf Hrun].
    destruct (meta_row (m0, None) r) as [e|[m1 e1]] eqn:Hrow; [done|].
    assert (e1 = None) as ->.
    { destruct r as [e|[k v]]; [done|]. by apply meta_row_step in Hrow as [? _]. }
    split; [apply (meta_row_accepts m0); by eexists|].
    apply (IH m1). by eexists.
Qed.

(** X20. [getMetaData] succeeds on the rows of a query exactly when every
    row is scanned without error, every version parses as an integer, and
    every bounds value has four parts of which each parses as a float. *)
Theorem getMetaData_succeeds_iff rows :
  (∃ meta, getMetaData (inr rows) = inr meta) ↔ Forall row_accepted rows.
Proof.
  rewrite (meta_rows_accepts rows (Mbtiles.zero_meta F)).
  unfold Mbtiles.getMetaData. split.
  - intros [meta Hrun].
    destruct (meta_rows (Mbtiles.zero_meta F, None) rows) as [e|[mf ef]] eqn:Hr;
      [done|].
    exists mf. f_equal. f_equal. destruct rows as [|r rows]; [by simplify_eq/=|].
    destruct (meta_rows_step _ _ _ _ _ Hr) as (k & v & m1 & -> & _ & Hrest).
    clear Hr Hrun. revert m1 Hrest.
    induction rows as [|r rows IH]; intros m1 Hrest; [by simplify_eq/=|].
    destruct (meta_rows_step _ _ _ _ _ Hrest) as (?&?&m2&->&_&Hrest').
    by apply (IH m2).
  - intros [mf ->]. by exists mf.
Qed.

(** X21. The first row that is not accepted decides the error: when it is
    a bounds row whose value does not have four parts, the error is
    "invalid bounds", whatever the rows after it. *)
Theorem getMetaData_invalid_bounds rows1 v rows2 :
  Forall row_accepted rows1 → length (Split v) ≠ 4%nat →
  getMetaData (inr (rows1 ++ inr ("bounds", v) :: rows2))
  = inl (errors_New "invalid bounds").
Proof.
  intros Hacc Hlen. unfold Mbtiles.getMetaData. rewrite meta_rows_app.
  apply (meta_rows_accepts rows1 (Mbtiles.zero_meta F)) in Hacc as [m1 ->].
  rewrite meta_rows_cons. destruct m1. unfold Mbtiles.meta_row. simpl.
  apply Nat.eqb_neq in Hlen. by rewrite Hlen.
Qed.

End MetaData.


Section Layers.
Variable Err : Type.
Variable Layer : Type.
Variable Layer_Name : Layer → string.
Variable zero_Layer : Layer.
Variable gunzip : list Byte.byte → Err + list Byte.byte.
Variable decode_layers : list Byte.byte → Err + list Layer.

Local Abbreviation MVTLayer :=
  (Mbtiles.MVTLayer Err Layer Layer_Name zero_Layer gunzip decode_layers).

Lemma pick_layer_last nm l0 ls :
  Mbtiles.pick_layer Layer Layer_Name nm l0 ls
  = default l0 (last (filter (λ l, Layer_Name l = nm) ls)).
Proof.
  unfold Mbtiles.pick_layer. revert l0.
  induction ls as [|l ls IH]; intros l0; [done|].
  simpl. rewrite IH, filter_cons.
  destruct (String.eqb_spec (Layer_Name l) nm) as [Heq|Hne].
  - rewrite decide_True by done. rewrite last_cons.
    by destruct (last (filter _ ls)).
  - by rewrite decide_False by done.
Qed.

(** X22. [MVTLayer] always returns (it never indexes out of range).  When
    it returns no error, the tile was read or was missing, its data was
    unzipped exactly if it begins with the bytes 1f 8b, the result was
    decoded into layers, and the layer returned is the last layer of the
    wanted name, or the zero layer when no layer has that name.  An error of
    [getTile] comes with the zero layer, every other error with [nil]. *)
Theorem MVTLayer_result nm r :
  ∃ res, MVTLayer nm r = Some res ∧
    (∀ ol, res = (ol, None) →
       ∃ t d ls,
         Mbtiles.getTile Err r = inr t ∧
         ((∃ rest, Mbtiles.data t = Byte.x1f :: Byte.x8b :: rest) →
          gunzip (Mbtiles.data t) = inr d) ∧
         (¬ (∃ rest, Mbtiles.data t = Byte.x1f :: Byte.x8b :: rest) →
          d = Mbtiles.data t) ∧
         decode_layers d = inr ls ∧
         ol = Some (default zero_Layer
                      (last (filter (λ l, Layer_Name l = nm) ls)))) ∧
    (∀ ol e, res = (ol, Some e) →
       (ol = Some zero_Layer ∧ Mbtiles.getTile Err r = inl e) ∨
       (ol = None ∧ ∃ t, Mbtiles.getTile Err r = inr t)).
Proof.
  unfold Mbtiles.MVTLayer.
  destruct (Mbtiles.getTile Err r) as [e|t] eqn:Ht.
  { eexists. split; [done|]. split; [done|]. intros ol e' [= <- <-]. by left. }
  destruct (isGzip_magic (Mbtiles.data t)) as [[gz Hgz] Hmagic]. rewrite Hgz.
  assert (gz = true ↔ ∃ rest, Mbtiles.data t = Byte.x1f :: Byte.x8b :: rest)
    as Hgz'.
  { rewrite <- Hmagic, Hgz. split; [by intros ->|by intros [= ->]]. }
  destruct gz.
  - destruct (gunzip (Mbtiles.data t)) as [e|d] eqn:Hz.
    { eexists. split; [done|]. split; [done|]. intros ol e' [= <- <-].
      right. eauto. }
    destruct (decode_layers d) as [e|ls] eqn:Hd.
    { eexists. split; [done|]. split; [done|]. intros ol e' [= <- <-].
      right. eauto. }
    eexists. split; [done|]. split; [|done]. intros ol [= <-].
    exists t, d, ls. rewrite pick_layer_last. repeat split; try done.
    intros Hn. exfalso. apply Hn. by apply Hgz'.
  - destruct (decode_layers (Mbtiles.data t)) as [e|ls] eqn:Hd.
    { eexists. split; [done|]. split; [done|]. intros ol e' [= <- <-].
      right. eauto. }
    eexists. split; [done|]. split; [|done]. intros ol [= <-].
    exists t, (Mbtiles.data t), ls. rewrite pick_layer_last.
    repeat split; try done.
    intros Hm. apply Hgz' in Hm. done.
Qed.

End Layers.

(** * Instances of the further properties *)

Lemma NewEventQueue_structure_witness :
  let q := NewEventQueue stable_sort bowtie in
  let n := length bowtie in
  ix q = 0%nat ∧ length (edata q) = (2 * n)%nat ∧ length (eq q) = (2 * n)%nat ∧
  eq q ≡ₚ edata q ∧
  (∀ e, e ∈ eq q → (edge e < n)%nat) ∧
  (∀ i sg, bowtie !! i = Some sg →
     ev <$> edata q !! (2 * i)%nat = Some (l_0 sg) ∧
     ev <$> edata q !! (2 * i + 1)%nat = Some (l_1 sg) ∧
     events_of i (eq q)
     ≡ₚ [mkEvent i LEFT (lo_pt sg); mkEvent i RIGHT (hi_pt sg)]).
Proof. apply (NewEventQueue_structure stable_sort bowtie stable_sort_contract). Defined.

Lemma Next_enumerates_witness :
  next_n (2 * length bowtie + 2) (NewEventQueue stable_sort bowtie)
  = (Some <$> stable_sort (init_events 0 bowtie)) ++ replicate 2 None.
Proof. apply (Next_enumerates stable_sort bowtie 2 stable_sort_contract). Defined.

Lemma Complement_in_range_witness :
  ∃ e', Complement (NewEventQueue stable_sort nested) (mkEvent 1 RIGHT (mkPt 2 1))
        = Some e' ∧
        e' ∈ eq (NewEventQueue stable_sort nested).
Proof.
  apply (Complement_in_range stable_sort nested (mkEvent 1 RIGHT (mkPt 2 1))
           stable_sort_contract).
  vm_compute. do 2 right. by left.
Defined.

Lemma reported_characterisation_witness :
  (0%nat, 2%nat) ∈ reported stable_sort no_solver in_order bowtie ↔
  ∃ e s pre ev post,
    stable_sort (init_events 0 bowtie) = pre ++ ev :: post ∧ edge ev = e ∧
    length (events_of e pre) = 1%nat ∧ length (events_of s pre) = 1%nat ∧
    reportable bowtie e s = true ∧
    0%nat = Nat.min e s ∧ 2%nat = Nat.max e s.
Proof.
  apply (reported_characterisation stable_sort no_solver in_order bowtie 0 2
           stable_sort_contract in_order_contract).
Defined.

Lemma calls_prefix_of_reported_witness :
  call_pair <$> calls_of stable_sort no_solver in_order bowtie stop_at_once 0%nat
  `prefix_of` reported stable_sort no_solver in_order bowtie ∧
  (Forall continued (calls_of stable_sort no_solver in_order bowtie stop_at_once 0%nat) →
   call_pair <$> calls_of stable_sort no_solver in_order bowtie stop_at_once 0%nat
   = reported stable_sort no_solver in_order bowtie).
Proof.
  apply (calls_prefix_of_reported stable_sort no_solver no_solver in_order bowtie
           stop_at_once 0%nat stable_sort_contract).
Defined.

Lemma reported_NoDup_witness :
  NoDup (reported stable_sort no_solver in_order bowtie).
Proof.
  apply (reported_NoDup stable_sort no_solver in_order bowtie
           stable_sort_contract in_order_contract).
Defined.

Lemma calls_in_range_witness :
  Forall (λ c, (srcIdx c < length bowtie)%nat ∧ (destIdx c < length bowtie)%nat)
    (calls_of stable_sort no_solver in_order bowtie stop_at_once 0%nat).
Proof.
  apply (calls_in_range stable_sort no_solver in_order bowtie stop_at_once 0%nat
           stable_sort_contract in_order_contract).
Defined.

Lemma IsSimple_iff_nothing_reported_witness :
  IsSimple stable_sort no_solver in_order unit_square = true ↔
  reported stable_sort no_solver (λ _ l, reverse l) unit_square = [].
Proof.
  apply (IsSimple_iff_nothing_reported stable_sort no_solver no_solver in_order
           (λ _ l, reverse l) unit_square stable_sort_contract in_order_contract).
  intros k l. apply reverse_Permutation.
Defined.

Lemma at_most_three_segments_witness :
  calls_of stable_sort no_solver in_order (take 3 bowtie) stop_at_once 0%nat = [] ∧
  IsSimple stable_sort no_solver in_order (take 3 bowtie) = true.
Proof.
  apply (at_most_three_segments stable_sort no_solver in_order (take 3 bowtie)
           stop_at_once 0%nat stable_sort_contract in_order_contract).
  simpl. lia.
Defined.

Lemma scan_completes_witness :
  let final := scan stable_sort no_solver in_order bowtie collect [] in
  ix (lq final) = (2 * length bowtie)%nat ∧
  isegmap final = ∅ ∧
  fst (Next (lq final)) = None.
Proof.
  apply (scan_completes stable_sort no_solver in_order bowtie collect []
           stable_sort_contract).
  by intros st src dest ptfn.
Defined.

Lemma getMetaData_ignores_unknown_witness :
  Mbtiles.getMetaData string (λ s, s) Z 0 Mbtiles.sample_ParseFloat
    Mbtiles.sample_ParseInt Mbtiles.sample_Split
    (inr ([inr ("name", "a")] ++ inr ("minzoom", "3") :: [inr ("format", "pbf")]))
  = Mbtiles.getMetaData string (λ s, s) Z 0 Mbtiles.sample_ParseFloat
      Mbtiles.sample_ParseInt Mbtiles.sample_Split
      (inr ([inr ("name", "a")] ++ [inr ("format", "pbf")])).
Proof.
  apply (getMetaData_ignores_unknown string (λ s, s) Z 0 Mbtiles.sample_ParseFloat
           Mbtiles.sample_ParseInt Mbtiles.sample_Split
           [inr ("name", "a")] [inr ("format", "pbf")] "minzoom" "3").
  reflexivity.
Defined.

Lemma getMetaData_last_wins_witness :
  Mbtiles.name Mbtiles.sample_meta
  = default "" (last (Mbtiles.values_of "name" Mbtiles.sample_rows)) ∧
  Mbtiles.mapType Mbtiles.sample_meta
  = default "" (last (Mbtiles.values_of "type" Mbtiles.sample_rows)) ∧
  Mbtiles.description Mbtiles.sample_meta
  = default "" (last (Mbtiles.values_of "description" Mbtiles.sample_rows)) ∧
  Mbtiles.format Mbtiles.sample_meta
  = default "" (last (Mbtiles.values_of "format" Mbtiles.sample_rows)) ∧
  Mbtiles.attribution Mbtiles.sample_meta
  = last (Mbtiles.values_of "attribution" Mbtiles.sample_rows) ∧
  Mbtiles.version Mbtiles.sample_meta
  = default 0 (fst ∘ Mbtiles.sample_ParseInt
                 <$> last (Mbtiles.values_of "version" Mbtiles.sample_rows)).
Proof.
  apply (getMetaData_last_wins string (λ s, s) Z 0 Mbtiles.sample_ParseFloat
           Mbtiles.sample_ParseInt Mbtiles.sample_Split
           Mbtiles.sample_rows Mbtiles.sample_meta).
  reflexivity.
Defined.

Lemma getMetaData_invalid_bounds_witness :
  Mbtiles.getMetaData string (λ s, s) Z 0 Mbtiles.sample_ParseFloat
    Mbtiles.sample_ParseInt Mbtiles.sample_Split
    (inr ([inr ("name", "a")] ++ inr ("bounds", "1,2,3") :: [inl "unread"]))
  = inl "invalid bounds".
Proof.
  apply (getMetaData_invalid_bounds string (λ s, s) Z 0 Mbtiles.sample_ParseFloat
           Mbtiles.sample_ParseInt Mbtiles.sample_Split
           [inr ("name", "a")] "1,2,3" [inl "unread"]).
  - constructor; [|constructor]. simpl. split; intros H; discriminate H.
  - vm_compute. lia.
Defined.
